(** * ChainProcessor: the chain-following reorganization engine

    A shallow embedding of [ironfish/src/chainProcessor.ts].  The class keeps
    a cursor (hash, sequence) and, on every [update], diffs the cursor against
    the head of the blockchain and emits [onRemove] / [onAdd] events.

    The processor talks to three objects that live outside of it: the
    blockchain it follows, the abort signal handed to [update] and the
    handlers registered on its two events.  They are mutable JavaScript
    objects, so the model keeps them in an environment [Env] that the
    handlers may change while an emission is awaited; the processor reads
    the environment again at every place where the source dereferences
    [this.chain] or [signal]. *)

From Stdlib Require Import List ZArith NArith Lia Bool String Ascii.
From Stdlib Require Import Strings.Byte.
From Stdlib Require Import RelationClasses.
Import ListNotations.
Local Open Scope Z_scope.

(** ** Buffers *)

Module Buffer.

(** A Node [Buffer]: a sequence of bytes. *)
Definition t := list byte.

(** [a.equals(b)]: bytewise equality. *)
Fixpoint equals (a b : t) : bool :=
  match a, b with
  | [], [] => true
  | x :: a', y :: b' => Byte.eqb x y && equals a' b'
  | _, _ => false
  end.

(** [Buffer.from(s)] for an ASCII string, used to name the hashes of examples. *)
Definition from (s : string) : t := list_byte_of_string s.

Definition hexdigit (n : N) : ascii :=
  nth (N.to_nat n) (list_ascii_of_string "0123456789abcdef") "0"%char.

(** [b.toString('hex')]. *)
Fixpoint toString_hex (b : t) : string :=
  match b with
  | [] => EmptyString
  | x :: b' =>
      String (hexdigit (N.div (Byte.to_N x) 16))
        (String (hexdigit (N.modulo (Byte.to_N x) 16)) (toString_hex b'))
  end.

End Buffer.

(** ** Block headers *)

Module LocalBlockHeader.

(** The three fields of a header that the processor reads. *)
Record t := mk {
  hash : Buffer.t;
  previousBlockHash : Buffer.t;
  sequence : Z
}.

Definition eqb (a b : t) : bool :=
  Buffer.equals (hash a) (hash b)
  && Buffer.equals (previousBlockHash a) (previousBlockHash b)
  && Z.eqb (sequence a) (sequence b).

End LocalBlockHeader.

Definition Header : Type := LocalBlockHeader.t.

(** ** The blockchain interface

    [blockchain.ts] is not part of the sources at hand; the processor only
    uses the six members below, so a blockchain is taken as a record of
    them.  Such a record is one state of the store: what the members answer
    at one moment.  The two iterators are asynchronous generators; the model
    takes the finite list of headers they yield. *)

Module Blockchain.

Record t := mk {
  genesis : Header;
  head : Header;
  getHeader : Buffer.t -> option Header;
  (* { fork, isLinear } *)
  findFork : Header -> Header -> option Header * bool;
  (* iterateFrom(start, end, undefined, false) *)
  iterateFrom : Header -> Header -> list Header;
  (* iterateTo(start, end, undefined, false) *)
  iterateTo : Header -> Header -> list Header
}.

End Blockchain.

(** ** Environment, events and the processor *)

(** References to the blockchain object and to an [AbortSignal]. *)
Definition ChainRef := nat.
Definition AbortSignal := nat.

(** The objects outside the processor: the state of every blockchain object
    and the [aborted] flag of every signal. *)
Record Env := mkEnv {
  chains : ChainRef -> Blockchain.t;
  aborted : AbortSignal -> bool
}.

(** A handler registered on an event receives the header.  It runs code of
    the subscriber, which may change the environment (a wallet that scans
    the block, a task that connects new blocks meanwhile, a caller that
    aborts the signal); [None] is a handler whose promise rejects. *)
Definition Handler := Header -> Env -> option Env.

(** [Event<[block: LocalBlockHeader]>]: the handlers in registration order. *)
Definition Event := list Handler.

Definition Event_new : Event := [].

(** [event.on(handler)]. *)
Definition Event_on (ev : Event) (hd : Handler) : Event := ev ++ [hd].

(** [logger.ts] is not among the sources either.  A logger is known by the
    tags it carries; what it writes goes to the list of log records of the
    state. *)
Record Logger := mkLogger { tags : list string }.

Definition createRootLogger : Logger := {| tags := [] |}.

Definition withTag (tag : string) (l : Logger) : Logger :=
  {| tags := tags l ++ [tag] |}.

Inductive LogLevel := LogDebug | LogInfo | LogWarn | LogError.

Record LogRecord := mkLog {
  log_level : LogLevel;
  log_tags : list string;
  log_message : string
}.

(** The fields of the class. *)
Record ChainProcessor := mkProcessor {
  chain : ChainRef;
  hash : option Buffer.t;
  sequence : option Z;
  logger : Logger;
  onAdd : Event;
  onRemove : Event
}.

(** [constructor(options: { logger?, chain, head })].  The field
    initialisers give [sequence = null] and two fresh events; the
    constructor assigns [chain], [logger] and [hash]. *)
Definition constructor (opt_logger : option Logger) (opt_chain : ChainRef)
    (opt_head : option Buffer.t) : ChainProcessor :=
  {| chain := opt_chain;
     hash := opt_head;
     sequence := None;
     logger := withTag "chainprocessor"
                 (match opt_logger with Some l => l | None => createRootLogger end);
     onAdd := Event_new;
     onRemove := Event_new |}.

(** What a subscriber is told. *)
Inductive BlockEvent :=
| Add (h : Header)
| Remove (h : Header).

(** What the processor does that the outside can see, in the order it does
    it: it reads [signal?.aborted] (with the value read) and it emits. *)
Inductive Action :=
| SignalChecked (b : bool)
| Emitted (e : BlockEvent).

Record State := mkState {
  self : ChainProcessor;
  env : Env;
  actions : list Action;
  logged : list LogRecord
}.

(** The events of a list of actions. *)
Fixpoint events (tr : list Action) : list BlockEvent :=
  match tr with
  | [] => []
  | Emitted e :: tr' => e :: events tr'
  | SignalChecked _ :: tr' => events tr'
  end.

(** ** Computations of the processor

    A method body either completes with a value or throws; in both cases
    the assignments made so far stay. *)

Inductive Error :=
| AssertionError (msg : string)
| HandlerRejected
| TypeError.

Inductive Completion (A : Type) :=
| Normal (a : A)
| Throw (e : Error).
Arguments Normal {A} a.
Arguments Throw {A} e.

Definition M (A : Type) := State -> Completion A * State.

Definition ret {A} (a : A) : M A := fun st => (Normal a, st).

Definition bind {A B} (m : M A) (k : A -> M B) : M B :=
  fun st =>
    match m st with
    | (Normal a, st') => k a st'
    | (Throw e, st') => (Throw e, st')
    end.

Definition throw {A} (e : Error) : M A := fun st => (Throw e, st).

Notation "x <- m ;; k" := (bind m (fun x => k))
  (at level 61, m at next level, right associativity).
Notation "m ;;; k" := (bind m (fun _ => k))
  (at level 61, right associativity).

Definition gets {A} (f : State -> A) : M A := fun st => (Normal (f st), st).

Definition set_hash (h : option Buffer.t) : M unit :=
  fun st =>
    let p := self st in
    (Normal tt,
     mkState (mkProcessor (chain p) h (sequence p) (logger p) (onAdd p) (onRemove p))
       (env st) (actions st) (logged st)).

Definition set_sequence (s : option Z) : M unit :=
  fun st =>
    let p := self st in
    (Normal tt,
     mkState (mkProcessor (chain p) (hash p) s (logger p) (onAdd p) (onRemove p))
       (env st) (actions st) (logged st)).

Definition record (a : Action) : M unit :=
  fun st => (Normal tt, mkState (self st) (env st) (actions st ++ [a]) (logged st)).

(** [this.chain], as it is now. *)
Definition this_chain (st : State) : Blockchain.t := chains (env st) (chain (self st)).

(** [signal?.aborted]: [undefined] when no signal was passed. *)
Definition signal_aborted (signal : option AbortSignal) (e : Env) : bool :=
  match signal with
  | None => false
  | Some s => aborted e s
  end.

Definition check_signal (signal : option AbortSignal) : M bool :=
  b <- gets (fun st => signal_aborted signal (env st)) ;;
  record (SignalChecked b) ;;;
  ret b.

(** Modelled from the spec: [Event.emitAsync] ([event.ts] is not among the
    sources).  The handlers are invoked in registration order and the caller
    resumes when all have completed; the first rejection is propagated, the
    environment staying as the handlers before it left it. *)
Fixpoint run_handlers (hs : list Handler) (h : Header) (e : Env) : Completion unit * Env :=
  match hs with
  | [] => (Normal tt, e)
  | hd :: hs' =>
      match hd h e with
      | Some e' => run_handlers hs' h e'
      | None => (Throw HandlerRejected, e)
      end
  end.

Definition emitAsync (ev : Event) (h : Header) : M unit :=
  fun st =>
    let (c, e') := run_handlers ev h (env st) in
    (c, mkState (self st) e' (actions st) (logged st)).

(** [private async add(header)]. *)
Definition add (header : Header) : M unit :=
  record (Emitted (Add header)) ;;;
  ev <- gets (fun st => onAdd (self st)) ;;
  emitAsync ev header.

(** [private async remove(header)]. *)
Definition remove (header : Header) : M unit :=
  record (Emitted (Remove header)) ;;;
  ev <- gets (fun st => onRemove (self st)) ;;
  emitAsync ev header.

(** The value of [update]. *)
Record UpdateResult := mkResult { hashChanged : bool }.

(** [{ hashChanged: !oldHash || !this.hash.equals(oldHash) }].  A [Buffer]
    is an object and so is truthy: [!oldHash] holds for [null] only.
    Calling [equals] on a [null] receiver would be a [TypeError]. *)
Definition hashChangedSince (oldHash : option Buffer.t) : M UpdateResult :=
  match oldHash with
  | None => ret (mkResult true)
  | Some old =>
      h <- gets (fun st => hash (self st)) ;;
      match h with
      | None => throw TypeError
      | Some h => ret (mkResult (negb (Buffer.equals h old)))
      end
  end.

(** The loop over [iterateFrom(head, fork)] (lines 84-96).  [Some r] is a
    [return r] out of the loop, [None] is the loop running out. *)
Fixpoint unwind (signal : option AbortSignal) (oldHash : option Buffer.t)
    (fork : Header) (iter : list Header) : M (option UpdateResult) :=
  match iter with
  | [] => ret None
  | rem :: iter' =>
      a <- check_signal signal ;;
      if a then
        r <- hashChangedSince oldHash ;; ret (Some r)
      else if Buffer.equals (LocalBlockHeader.hash rem) (LocalBlockHeader.hash fork) then
        unwind signal oldHash fork iter'
      else
        remove rem ;;;
        set_hash (Some (LocalBlockHeader.previousBlockHash rem)) ;;;
        set_sequence (Some (LocalBlockHeader.sequence rem - 1)) ;;;
        unwind signal oldHash fork iter'
  end.

(** The loop over [iterateTo(fork, chainHead)] (lines 101-113). *)
Fixpoint rewind (signal : option AbortSignal) (oldHash : option Buffer.t)
    (fork : Header) (iter : list Header) : M (option UpdateResult) :=
  match iter with
  | [] => ret None
  | a :: iter' =>
      ab <- check_signal signal ;;
      if ab then
        r <- hashChangedSince oldHash ;; ret (Some r)
      else if Buffer.equals (LocalBlockHeader.hash a) (LocalBlockHeader.hash fork) then
        rewind signal oldHash fork iter'
      else
        add a ;;;
        set_hash (Some (LocalBlockHeader.hash a)) ;;;
        set_sequence (Some (LocalBlockHeader.sequence a)) ;;;
        rewind signal oldHash fork iter'
  end.

(** Lines 56-60: an unseeded processor starts with the genesis block.
    [this.chain.genesis] is read three times, once before and twice after
    the emission. *)
Definition bootstrap : M unit :=
  h <- gets (fun st => hash (self st)) ;;
  match h with
  | Some _ => ret tt
  | None =>
      g <- gets (fun st => Blockchain.genesis (this_chain st)) ;;
      add g ;;;
      g1 <- gets (fun st => Blockchain.genesis (this_chain st)) ;;
      set_hash (Some (LocalBlockHeader.hash g1)) ;;;
      g2 <- gets (fun st => Blockchain.genesis (this_chain st)) ;;
      set_sequence (Some (LocalBlockHeader.sequence g2))
  end.

(** [Assert.isNotNull(head, message)] of line 71. *)
Definition head_not_found (h : Buffer.t) : string :=
  ("Chain processor head not found in chain: " ++ Buffer.toString_hex h)%string.

(** Lines 62-115: the pass proper, once the cursor is seeded. *)
Definition reconcile (signal : option AbortSignal) (oldHash : option Buffer.t)
    : M UpdateResult :=
  (* Freeze this value in case it changes while we're updating the head *)
  chainHead <- gets (fun st => Blockchain.head (this_chain st)) ;;
  h <- gets (fun st => hash (self st)) ;;
  match h with
  | None => throw TypeError
  | Some h =>
      if Buffer.equals (LocalBlockHeader.hash chainHead) h then
        ret (mkResult false)
      else
        head <- gets (fun st => Blockchain.getHeader (this_chain st) h) ;;
        match head with
        | None => throw (AssertionError (head_not_found h))
        | Some head =>
            ff <- gets (fun st => Blockchain.findFork (this_chain st) head chainHead) ;;
            match ff with
            | (None, _) => ret (mkResult false)
            | (Some fork, isLinear) =>
                r <- (if negb isLinear then
                        iter <- gets (fun st => Blockchain.iterateFrom (this_chain st) head fork) ;;
                        unwind signal oldHash fork iter
                      else ret None) ;;
                match r with
                | Some r => ret r
                | None =>
                    iter <- gets (fun st => Blockchain.iterateTo (this_chain st) fork chainHead) ;;
                    r <- rewind signal oldHash fork iter ;;
                    match r with
                    | Some r => ret r
                    | None => hashChangedSince oldHash
                    end
                end
            end
        end
  end.

(** [async update({ signal } = {})]. *)
Definition update (signal : option AbortSignal) : M UpdateResult :=
  oldHash <- gets (fun st => hash (self st)) ;;
  bootstrap ;;;
  reconcile signal oldHash.

(** ** A store in memory

    Modelled from the spec: the blockchain store of [blockchain.ts], which
    is not among the sources.  Section 4.A and 4.B of the specification say
    what its members do: [get_header] looks a hash up; [iterate_from] walks
    backward along parent pointers from [start] toward [stop], yielding
    [start] first and [stop] last; [iterate_to] walks forward from [start] to
    [stop], yielding [start] first and [stop] last; [find_fork] returns the
    lowest header that is an ancestor of both arguments, or none for
    disjoint trees, and [is_linear] tells whether the fork is one of the
    two. *)

Module MemChain.

Record t := mk {
  headers : list Header;
  genesis : Header;
  head : Header
}.

Definition getHeader (mc : t) (h : Buffer.t) : option Header :=
  find (fun x => Buffer.equals (LocalBlockHeader.hash x) h) (headers mc).

(** From [cur] along the parent pointers until [stop] is reached or the
    parent is not in the store. *)
Fixpoint backward (fuel : nat) (mc : t) (cur stop : Header) : list Header :=
  cur ::
  (if Buffer.equals (LocalBlockHeader.hash cur) (LocalBlockHeader.hash stop) then []
   else
     match fuel with
     | O => []
     | S fuel' =>
         match getHeader mc (LocalBlockHeader.previousBlockHash cur) with
         | None => []
         | Some p => backward fuel' mc p stop
         end
     end).

Definition iterateFrom (mc : t) (start stop : Header) : list Header :=
  backward (List.length (headers mc)) mc start stop.

Definition iterateTo (mc : t) (start stop : Header) : list Header :=
  rev (backward (List.length (headers mc)) mc stop start).

Definition ancestors (mc : t) (x : Header) : list Header :=
  backward (List.length (headers mc)) mc x (genesis mc).

Definition same_hash (x y : Header) : bool :=
  Buffer.equals (LocalBlockHeader.hash x) (LocalBlockHeader.hash y).

Definition findFork (mc : t) (a b : Header) : option Header * bool :=
  let fork := find (fun x => existsb (same_hash x) (ancestors mc b)) (ancestors mc a) in
  (fork,
   match fork with
   | Some f => same_hash f a || same_hash f b
   | None => false
   end).

Definition store (mc : t) : Blockchain.t :=
  Blockchain.mk (genesis mc) (head mc) (getHeader mc) (findFork mc)
    (iterateFrom mc) (iterateTo mc).

End MemChain.

(** ** A store whose forward iterator follows the canonical chain

    Modelled from the spec: [iterate_to] of section 4.A walks forward along
    the canonical chain from [start] to [stop], the canonical chain being
    the path from the genesis block to the head.  The other members are
    those of the store in memory.  For a stop on the branch of the head
    this yields what walking back from the stop yields; for a stop on
    another branch it yields headers of the head's branch. *)

Module MainChain.

(** The canonical chain, the genesis block first and the head last. *)
Definition main (mc : MemChain.t) : list Header :=
  rev (MemChain.ancestors mc (MemChain.head mc)).

Definition between (start stop x : Header) : bool :=
  (LocalBlockHeader.sequence start <=? LocalBlockHeader.sequence x)
  && (LocalBlockHeader.sequence x <=? LocalBlockHeader.sequence stop).

Definition iterateTo (mc : MemChain.t) (start stop : Header) : list Header :=
  filter (between start stop) (main mc).

Definition store (mc : MemChain.t) : Blockchain.t :=
  Blockchain.mk (MemChain.genesis mc) (MemChain.head mc) (MemChain.getHeader mc)
    (MemChain.findFork mc) (MemChain.iterateFrom mc) (iterateTo mc).

End MainChain.

(** ** Vocabulary of the properties *)

(** The cursor: the two fields that [update] assigns. *)
Definition cursor (st : State) : option Buffer.t * option Z :=
  (hash (self st), sequence (self st)).

(** The headers of an iterator that are not skipped as the fork. *)
Definition not_fork (fork x : Header) : bool :=
  negb (Buffer.equals (LocalBlockHeader.hash x) (LocalBlockHeader.hash fork)).

Definition others (fork : Header) (l : list Header) : list Header :=
  filter (not_fork fork) l.

(** Where the cursor is put after an event for [x]. *)
Definition after_remove (x : Header) : option Buffer.t * option Z :=
  (Some (LocalBlockHeader.previousBlockHash x), Some (LocalBlockHeader.sequence x - 1)).

Definition after_add (x : Header) : option Buffer.t * option Z :=
  (Some (LocalBlockHeader.hash x), Some (LocalBlockHeader.sequence x)).

(** The cursor after the events for all of [l], from cursor [c0]. *)
Definition cursor_after (f : Header -> option Buffer.t * option Z)
    (l : list Header) (c0 : option Buffer.t * option Z) : option Buffer.t * option Z :=
  fold_left (fun _ x => f x) l c0.

(** A handler keeps an invariant of the environment. *)
Definition keeps (I : Env -> Prop) (hd : Handler) : Prop :=
  forall h e e', I e -> hd h e = Some e' -> I e'.

(** The handlers of both events of the processor. *)
Definition handlers (p : ChainProcessor) : list Handler := onAdd p ++ onRemove p.

(** The caller's side: it subscribes handlers ([processor.onAdd.on(hd)]),
    it calls [update], and between two calls the environment may change
    (blocks are connected, the head moves). *)
Inductive Op :=
| OnAdd (hd : Handler)
| OnRemove (hd : Handler)
| Mutate (f : Env -> Env)
| Call (signal : option AbortSignal).

Definition subscribe_add (hd : Handler) (p : ChainProcessor) : ChainProcessor :=
  mkProcessor (chain p) (hash p) (sequence p) (logger p) (Event_on (onAdd p) hd) (onRemove p).

Definition subscribe_remove (hd : Handler) (p : ChainProcessor) : ChainProcessor :=
  mkProcessor (chain p) (hash p) (sequence p) (logger p) (onAdd p) (Event_on (onRemove p) hd).

Definition step (o : Op) (st : State) : State :=
  match o with
  | OnAdd hd => mkState (subscribe_add hd (self st)) (env st) (actions st) (logged st)
  | OnRemove hd => mkState (subscribe_remove hd (self st)) (env st) (actions st) (logged st)
  | Mutate f => mkState (self st) (f (env st)) (actions st) (logged st)
  | Call signal => snd (update signal st)
  end.

Definition run (ops : list Op) (st : State) : State :=
  fold_left (fun st o => step o st) ops st.

(** A processor fresh from its constructor, in environment [e]. *)
Definition fresh (opt_logger : option Logger) (c : ChainRef) (head : option Buffer.t)
    (e : Env) : State :=
  mkState (constructor opt_logger c head) e [] [].

(** The two shapes of a cursor in the specification: Unseeded, with hash and
    sequence both null, or At(hash, sequence), with both set. *)
Definition unseeded_or_at (p : ChainProcessor) : Prop :=
  (hash p = None /\ sequence p = None) \/ (hash p <> None /\ sequence p <> None).

(** The number of [Add H] minus the number of [Remove H]. *)
Definition delta (H : Header) (e : BlockEvent) : Z :=
  match e with
  | Add x => if LocalBlockHeader.eqb x H then 1 else 0
  | Remove x => if LocalBlockHeader.eqb x H then -1 else 0
  end.

Fixpoint net (H : Header) (evs : list BlockEvent) : Z :=
  match evs with
  | [] => 0
  | e :: evs' => delta H e + net H evs'
  end.

(** P1: at every point of the stream the difference is 0 or 1. *)
Definition balanced (evs : list BlockEvent) : Prop :=
  forall (n : nat) (H : Header), 0 <= net H (firstn n evs) <= 1.

(** [x] is a child of [p]. *)
Definition child_of (x p : Header) : Prop :=
  LocalBlockHeader.previousBlockHash x = LocalBlockHeader.hash p
  /\ LocalBlockHeader.sequence x = LocalBlockHeader.sequence p + 1.

(** Every header of the list is a child of the next one. *)
Fixpoint descending (l : list Header) : Prop :=
  match l with
  | [] => True
  | x :: l' =>
      match l' with
      | [] => True
      | p :: _ => child_of x p /\ descending l'
      end
  end.

(** Every header of the list is the parent of the next one. *)
Fixpoint ascending (l : list Header) : Prop :=
  match l with
  | [] => True
  | p :: l' =>
      match l' with
      | [] => True
      | x :: _ => child_of x p /\ ascending l'
      end
  end.

(** A walk backward along parent pointers that yields [start] first and
    [stop] last, and a walk forward that does. *)
Definition walk_down (l : list Header) (start stop : Header) : Prop :=
  hd_error l = Some start /\ last l start = stop /\ descending l.

Definition walk_up (l : list Header) (start stop : Header) : Prop :=
  hd_error l = Some start /\ last l start = stop /\ ascending l.

(** What the specification asks of a store (4.A, 4.B), for the headers
    [known] to exist and the genesis block [g]: lookups answer with the
    header of that hash; and for a header [a] that a lookup finds and its
    fork with the head of the store, the fork of a linear pair is one of the
    two, [iterateFrom] walks the parent links from [a] down to the fork, and
    [iterateTo] walks from the fork up to the head.  Nothing is asked of
    [iterateTo] for a stop that is not the head: the canonical chain leads
    to the head only. *)
Record honours (known : Header -> Prop) (g : Header) (S : Blockchain.t) : Prop := {
  honours_genesis : Blockchain.genesis S = g;
  honours_head : known (Blockchain.head S);
  honours_getHeader : forall h x,
    Blockchain.getHeader S h = Some x -> known x /\ LocalBlockHeader.hash x = h;
  honours_linear : forall h a f,
    Blockchain.getHeader S h = Some a ->
    Blockchain.findFork S a (Blockchain.head S) = (Some f, true) ->
    f = a \/ f = Blockchain.head S;
  honours_iterateFrom : forall h a f lin,
    Blockchain.getHeader S h = Some a ->
    Blockchain.findFork S a (Blockchain.head S) = (Some f, lin) ->
    walk_down (Blockchain.iterateFrom S a f) a f
    /\ Forall known (Blockchain.iterateFrom S a f);
  honours_iterateTo : forall h a f lin,
    Blockchain.getHeader S h = Some a ->
    Blockchain.findFork S a (Blockchain.head S) = (Some f, lin) ->
    walk_up (Blockchain.iterateTo S f (Blockchain.head S)) f (Blockchain.head S)
    /\ Forall known (Blockchain.iterateTo S f (Blockchain.head S))
}.

(** The headers [known] to exist: the hash identifies the header, and none
    is below the genesis block. *)
Record universe (known : Header -> Prop) (g : Header) : Prop := {
  universe_genesis : known g;
  universe_hash : forall a b,
    known a -> known b -> LocalBlockHeader.hash a = LocalBlockHeader.hash b -> a = b;
  universe_floor : forall x, known x -> LocalBlockHeader.sequence g <= LocalBlockHeader.sequence x
}.

(** A subscriber that, while [I] holds of the environment, acknowledges the
    event, keeps [I] and leaves the blockchain [c] as it is. *)
Definition polite (I : Env -> Prop) (c : ChainRef) (hd : Handler) : Prop :=
  forall h e, I e -> exists e', hd h e = Some e' /\ I e' /\ chains e' c = chains e c.

(** What the caller does: it subscribes polite handlers and its mutations of
    the environment keep [I]. *)
Definition civil (I : Env -> Prop) (c : ChainRef) (o : Op) : Prop :=
  match o with
  | OnAdd hd | OnRemove hd => polite I c hd
  | Mutate f => forall e, I e -> I (f e)
  | Call _ => True
  end.

(** How often [H] is in a list of headers. *)
Fixpoint occurrences (H : Header) (l : list Header) : Z :=
  match l with
  | [] => 0
  | x :: l' => (if LocalBlockHeader.eqb x H then 1 else 0) + occurrences H l'
  end.

(** The path from the header of the cursor, [x], back to the genesis block. *)
Definition on_chain (known : Header -> Prop) (g : Header) (x : Header) (rp : list Header)
    : Prop :=
  descending (x :: rp) /\ last (x :: rp) g = g /\ Forall known (x :: rp).

(** The events emitted so far are balanced and add up to the path of the
    cursor. *)
Definition tracks (known : Header -> Prop) (g : Header) (st : State)
    (x : Header) (rp : list Header) : Prop :=
  hash (self st) = Some (LocalBlockHeader.hash x)
  /\ on_chain known g x rp
  /\ balanced (events (actions st))
  /\ forall H, net H (events (actions st)) = occurrences H (x :: rp).

(** The state of a processor that was constructed unseeded: either nothing
    was emitted yet or the events track a path. *)
Definition ledger (known : Header -> Prop) (g : Header) (st : State) : Prop :=
  (hash (self st) = None /\ events (actions st) = [])
  \/ exists x rp, tracks known g st x rp.

(** The processor follows [c], the environment satisfies [I] and the
    subscribers are polite. *)
Definition civil_state (I : Env -> Prop) (c : ChainRef) (st : State) : Prop :=
  chain (self st) = c /\ I (env st) /\ Forall (polite I c) (handlers (self st)).

(** Every emission is immediately preceded by a reading of the signal that
    found it not aborted.  [ok] tells whether the action before was such a
    reading. *)
Fixpoint guarded_from (ok : bool) (tr : list Action) : bool :=
  match tr with
  | [] => true
  | SignalChecked b :: tr' => guarded_from (negb b) tr'
  | Emitted _ :: tr' => ok && guarded_from false tr'
  end.

Definition guarded (tr : list Action) : bool := guarded_from false tr.

(** The actions of a state that has gone through [tail] more, all
    emissions of which follow a reading of the signal. *)
Definition guarded_step (st st' : State) : Prop :=
  exists tail, actions st' = actions st ++ tail /\ guarded tail = true.

(** The processor wrote a warning. *)
Definition warned (before after : list LogRecord) : Prop :=
  exists r, In r (skipn (List.length before) after) /\ log_level r = LogWarn.

(** A computation moves every state along the relation [R], whether it
    completes or throws. *)
Definition steps (R : State -> State -> Prop) {A} (m : M A) : Prop :=
  forall st, R st (snd (m st)).

(** [update] leaves these alone. *)
Definition same_frame (st st' : State) : Prop :=
  chain (self st') = chain (self st)
  /\ logger (self st') = logger (self st)
  /\ onAdd (self st') = onAdd (self st)
  /\ onRemove (self st') = onRemove (self st)
  /\ logged st' = logged st.

(** The cursor is where it was, or it has both a hash and a sequence. *)
Definition cursor_moves (st st' : State) : Prop :=
  cursor st' = cursor st \/ exists h s, cursor st' = (Some h, Some s).

(** The environment satisfies [I] and the handlers keep it so. *)
Definition settled (I : Env -> Prop) (st : State) : Prop :=
  I (env st) /\ Forall (keeps I) (handlers (self st)).

Definition stays_settled (I : Env -> Prop) (st st' : State) : Prop :=
  settled I st -> settled I st'.

(** The state after the processor has done the actions [l], the handlers
    have left the environment [e] and the cursor is [c]. *)
Definition moved (st : State) (c : option Buffer.t * option Z) (e : Env)
    (l : list Action) : State :=
  mkState
    (mkProcessor (chain (self st)) (fst c) (snd c) (logger (self st))
       (onAdd (self st)) (onRemove (self st)))
    e (actions st ++ l) (logged st).

(** The state after the actions [l] alone. *)
Definition noted (st : State) (l : list Action) : State :=
  mkState (self st) (env st) (actions st ++ l) (logged st).

(** The state after the actions [l] during which the handlers left [e]. *)
Definition disturbed (st : State) (e : Env) (l : list Action) : State :=
  mkState (self st) e (actions st ++ l) (logged st).

(** The value returned when the signal is found aborted. *)
Definition cancelled (old : option Buffer.t) (st : State)
    : Completion (option UpdateResult) * State :=
  match hashChangedSince old (noted st [SignalChecked true]) with
  | (Normal r, st') => (Normal (Some r), st')
  | (Throw err, st') => (Throw err, st')
  end.

(** A step that only reads the signal: the state has gone through actions
    without an emission and is otherwise the same. *)
Definition quiet_step (st st' : State) : Prop :=
  exists l, st' = noted st l /\ events l = [].

(** What a step does when it starts with the signal aborted. *)
Definition quiet_when_aborted (signal : option AbortSignal) (st st' : State) : Prop :=
  signal_aborted signal (env st) = true -> quiet_step st st'.

(** The state is civil and its events track some path. *)
Definition sound (known : Header -> Prop) (g : Header) (I : Env -> Prop) (c : ChainRef)
    (st : State) : Prop :=
  civil_state I c st /\ exists x rp, tracks known g st x rp.

(** ** The chains of the scenarios *)

Module Scenario.

(** The parent of a genesis block: 32 zero bytes. *)
Definition zero : Buffer.t := repeat "000"%byte 32.

Definition block (name parent : string) (seq : Z) : Header :=
  LocalBlockHeader.mk (Buffer.from name) (Buffer.from parent) seq.

Definition G : Header := LocalBlockHeader.mk (Buffer.from "G") zero 1.
Definition A1 := block "A1" "G" 2.
Definition A2 := block "A2" "A1" 3.
Definition A3 := block "A3" "A2" 4.
Definition B1 := block "B1" "G" 2.
Definition B2 := block "B2" "B1" 3.
Definition B3 := block "B3" "B2" 4.
Definition B4 := block "B4" "B3" 5.
(** The root of a tree of its own. *)
Definition C1 : Header := LocalBlockHeader.mk (Buffer.from "C1") zero 1.

Definition all_blocks : list Header := [G; A1; A2; A3; B1; B2; B3; B4].

(** The store once its head has switched to the B branch. *)
Definition reorged : Blockchain.t :=
  MemChain.store (MemChain.mk all_blocks G B4).

(** A store that holds only its genesis block. *)
Definition only_genesis : Blockchain.t :=
  MemChain.store (MemChain.mk [G] G G).

(** A store whose head is in a tree that does not contain the cursor. *)
Definition disjoint : Blockchain.t :=
  MemChain.store (MemChain.mk [G; A1; C1] G C1).

(** Scenario 3, before and after the reorganization of depth 1. *)
Definition on_A1 : Blockchain.t :=
  MemChain.store (MemChain.mk [G; A1] G A1).

Definition on_B1 : Blockchain.t :=
  MemChain.store (MemChain.mk [G; A1; B1] G B1).

(** A store that has lost the header of its genesis block. *)
Definition broken : Blockchain.t :=
  MemChain.store (MemChain.mk [A1] G A1).

Definition env_of (c : Blockchain.t) (abort : bool) : Env :=
  mkEnv (fun _ => c) (fun _ => abort).

Definition start (p : ChainProcessor) (c : Blockchain.t) (abort : bool) : State :=
  mkState p (env_of c abort) [] [].

(** A subscriber that acknowledges and leaves the environment alone. *)
Definition quiet : Handler := fun _ e => Some e.

(** A processor with the given cursor and a subscriber on each event. *)
Definition subscribed_at (h : option Buffer.t) (s : option Z) : ChainProcessor :=
  mkProcessor 0%nat h s (withTag "chainprocessor" createRootLogger)
    (Event_on Event_new quiet) (Event_on Event_new quiet).

(** A subscribed processor whose cursor is on [x], and an unseeded one. *)
Definition seeded (x : Header) (c : Blockchain.t) (abort : bool) : State :=
  start (subscribed_at (Some (LocalBlockHeader.hash x)) (Some (LocalBlockHeader.sequence x)))
    c abort.

Definition unseeded (c : Blockchain.t) (abort : bool) : State :=
  start (subscribed_at None None) c abort.

(** The headers of scenario 3. *)
Definition small (h : Header) : Prop := In h [G; A1; B1].

(** The two states of scenario 3 in a store that follows the canonical
    chain. *)
Definition main_A1 : Blockchain.t :=
  MainChain.store (MemChain.mk [G; A1] G A1).

Definition main_B1 : Blockchain.t :=
  MainChain.store (MemChain.mk [G; A1; B1] G B1).

(** The store of scenario 3 is in one of its two states. *)
Definition reorganizing (e : Env) : Prop :=
  chains e 0%nat = main_A1 \/ chains e 0%nat = main_B1.

(** Subscribe, follow the chain to [A1], let the store switch to the B
    branch, follow again. *)
Definition session : list Op :=
  [OnAdd quiet; OnRemove quiet; Call None;
   Mutate (fun _ => env_of main_B1 false); Call None].

End Scenario.

(** ** Vocabulary of the outcome of a pass *)

(** Where an acknowledged event leaves the cursor. *)
Definition cursor_of (e : BlockEvent) : option Buffer.t * option Z :=
  match e with
  | Add x => after_add x
  | Remove x => after_remove x
  end.

Definition header_of (e : BlockEvent) : Header :=
  match e with
  | Add x => x
  | Remove x => x
  end.

(** The cursor once all of [done] has been acknowledged, from cursor [c0]:
    the cursor of the last event, or [c0] when there is none. *)
Definition acknowledged (done : list BlockEvent) (c0 : option Buffer.t * option Z)
    : option Buffer.t * option Z :=
  fold_left (fun _ e => cursor_of e) done c0.

(** [!oldHash || !this.hash.equals(oldHash)] for a processor that has a
    hash. *)
Definition moved_since (old : option Buffer.t) (st : State) : bool :=
  match old, hash (self st) with
  | Some o, Some h => negb (Buffer.equals h o)
  | _, _ => true
  end.

(** The events of a whole pass from [cur] to [target] over [fork]: the
    old branch is removed from the cursor down, the new one is added from
    the fork up. *)
Definition script (S : Blockchain.t) (cur fork : Header) (lin : bool) (target : Header)
    : list BlockEvent :=
  map Remove (if lin then [] else others fork (Blockchain.iterateFrom S cur fork))
  ++ map Add (others fork (Blockchain.iterateTo S fork target)).

(** What a loop has got through: the headers [done] of its iterator have
    been emitted as [kind] events, and the loop has run out, has returned
    or has thrown. *)
Definition loop_outcome (kind : Header -> BlockEvent) (old : option Buffer.t)
    (fork : Header) (iter : list Header) (st : State)
    (out : Completion (option UpdateResult) * State) : Prop :=
  exists done rest,
    others fork iter = done ++ rest
    /\ events (actions (snd out)) = events (actions st) ++ map kind done
    /\ hash (self (snd out)) <> None
    /\ match fst out with
       | Normal None =>
           rest = [] /\ cursor (snd out) = acknowledged (map kind done) (cursor st)
       | Normal (Some r) =>
           cursor (snd out) = acknowledged (map kind done) (cursor st)
           /\ r = mkResult (moved_since old (snd out))
       | Throw err =>
           err = HandlerRejected /\ done <> []
           /\ cursor (snd out) = acknowledged (map kind (removelast done)) (cursor st)
       end.

(** The cursor is the hash and the sequence of a header that is [known]. *)
Definition seated (known : Header -> Prop) (st : State) : Prop :=
  exists x, known x /\ cursor st = after_add x.

(** A subscriber that may reject an event but, when it acknowledges, keeps
    [I] and leaves the blockchain [c] as it is. *)
Definition careful (I : Env -> Prop) (c : ChainRef) (hd : Handler) : Prop :=
  forall h e e', I e -> hd h e = Some e' -> I e' /\ chains e' c = chains e c.

(** A caller that subscribes careful handlers and whose mutations keep [I]. *)
Definition orderly (I : Env -> Prop) (c : ChainRef) (o : Op) : Prop :=
  match o with
  | OnAdd hd | OnRemove hd => careful I c hd
  | Mutate f => forall e, I e -> I (f e)
  | Call _ => True
  end.

(** What a pass with a fork has got through: a first part [removed] of the
    old branch and, only once all of it is removed, a first part [added] of
    the new branch, read from the store as it is in environment [e1] when
    the additions begin. *)
Definition pass_outcome (old : option Buffer.t) (st : State) (cur fork : Header)
    (lin : bool) (out : Completion UpdateResult * State) : Prop :=
  exists removed added e1,
    (exists rest,
       (if lin then [] else others fork (Blockchain.iterateFrom (this_chain st) cur fork))
         = removed ++ rest
       /\ (added <> [] -> rest = []))
    /\ (exists rest,
          others fork (Blockchain.iterateTo (chains e1 (chain (self st))) fork
                         (Blockchain.head (this_chain st)))
            = added ++ rest)
    /\ (forall I, settled I st -> I e1)
    /\ events (actions (snd out))
         = events (actions st) ++ map Remove removed ++ map Add added
    /\ hash (self (snd out)) <> None
    /\ match fst out with
       | Normal r =>
           cursor (snd out)
             = acknowledged (map Remove removed ++ map Add added) (cursor st)
           /\ r = mkResult (moved_since old (snd out))
       | Throw err =>
           err = HandlerRejected
           /\ map Remove removed ++ map Add added <> []
           /\ cursor (snd out)
                = acknowledged (removelast (map Remove removed ++ map Add added)) (cursor st)
       end.

(** ** Scenario 5: cancellation in the middle of the removals *)

Module Cancellation.

(** A subscriber of [onRemove] that aborts every signal. *)
Definition abort_all : Handler :=
  fun _ e => Some (mkEnv (chains e) (fun _ => true)).

(** The cursor is on [A3], the store has switched to the B branch, and the
    first removal will abort the signal. *)
Definition interrupted : State :=
  mkState
    (mkProcessor 0%nat (Some (LocalBlockHeader.hash Scenario.A3)) (Some 4)
       (withTag "chainprocessor" createRootLogger)
       (Event_on Event_new Scenario.quiet) (Event_on Event_new abort_all))
    (Scenario.env_of Scenario.reorged false) [] [].

End Cancellation.
(** * Proofs *)

(** ** Equality of buffers and headers *)

Lemma Buffer_equals_eq (a b : Buffer.t) : Buffer.equals a b = true <-> a = b.
Proof.
  revert b; induction a as [|x a IH]; intros [|y b]; simpl; split; intro H;
    try reflexivity; try discriminate.
  - apply andb_true_iff in H as [Hx Hab].
    apply Byte.byte_dec_bl in Hx. apply IH in Hab. congruence.
  - injection H as -> ->. apply andb_true_iff; split.
    + now apply Byte.byte_dec_lb.
    + now apply IH.
Qed.

Lemma Buffer_equals_refl (a : Buffer.t) : Buffer.equals a a = true.
Proof. now apply Buffer_equals_eq. Qed.

Lemma Buffer_equals_neq (a b : Buffer.t) : Buffer.equals a b = false <-> a <> b.
Proof.
  split.
  - intros H ->. rewrite Buffer_equals_refl in H. discriminate.
  - intros H. destruct (Buffer.equals a b) eqn:E; [|reflexivity].
    apply Buffer_equals_eq in E. contradiction.
Qed.

Lemma Header_eqb_eq (a b : Header) : LocalBlockHeader.eqb a b = true <-> a = b.
Proof.
  unfold LocalBlockHeader.eqb. destruct a as [h p s], b as [h' p' s']; simpl.
  rewrite !andb_true_iff, !Buffer_equals_eq, Z.eqb_eq.
  split; [intros [[-> ->] ->]; reflexivity | intros [= -> -> ->]; auto].
Qed.

Lemma Header_eqb_refl (a : Header) : LocalBlockHeader.eqb a a = true.
Proof. now apply Header_eqb_eq. Qed.

Lemma Header_eqb_neq (a b : Header) : LocalBlockHeader.eqb a b = false <-> a <> b.
Proof.
  split.
  - intros H ->. rewrite Header_eqb_refl in H. discriminate.
  - intros H. destruct (LocalBlockHeader.eqb a b) eqn:E; [|reflexivity].
    apply Header_eqb_eq in E. contradiction.
Qed.

(** ** Relations that every step of [update] respects *)

Section Steps.

Variable R : State -> State -> Prop.
Context {R_pre : PreOrder R}.

Lemma steps_ret {A} (a : A) : steps R (ret a).
Proof. intros st; simpl; reflexivity. Qed.

Lemma steps_throw {A} (e : Error) : steps R (@throw A e).
Proof. intros st; simpl; reflexivity. Qed.

Lemma steps_gets {A} (f : State -> A) : steps R (gets f).
Proof. intros st; simpl; reflexivity. Qed.

Lemma steps_bind {A B} (m : M A) (k : A -> M B) :
  steps R m -> (forall a, steps R (k a)) -> steps R (bind m k).
Proof.
  intros Hm Hk st. unfold bind. specialize (Hm st).
  destruct (m st) as [[a|e] st1]; simpl in *.
  - etransitivity; [exact Hm | apply Hk].
  - exact Hm.
Qed.

Lemma steps_hashChangedSince old : steps R (hashChangedSince old).
Proof.
  destruct old as [old|]; simpl; [|apply steps_ret].
  apply steps_bind; [apply steps_gets | intros [h|]];
    [apply steps_ret | apply steps_throw].
Qed.

(** The pass respects what its two loops respect. *)
Lemma steps_reconcile_loops signal old :
  (forall fork iter, steps R (unwind signal old fork iter)) ->
  (forall fork iter, steps R (rewind signal old fork iter)) ->
  steps R (reconcile signal old).
Proof.
  intros R_unwind R_rewind.
  unfold reconcile. apply steps_bind; [apply steps_gets | intros chainHead].
  apply steps_bind; [apply steps_gets | intros [h|]]; [|apply steps_throw].
  destruct (Buffer.equals _ _); [apply steps_ret|].
  apply steps_bind; [apply steps_gets | intros [head|]]; [|apply steps_throw].
  apply steps_bind; [apply steps_gets | intros [[fork|] lin]]; [|apply steps_ret].
  apply steps_bind.
  - destruct (negb lin); [|apply steps_ret].
    apply steps_bind; [apply steps_gets | intros iter; apply R_unwind].
  - intros [r|]; [apply steps_ret|].
    apply steps_bind; [apply steps_gets | intros iter].
    apply steps_bind; [apply R_rewind | intros [r|]];
      [apply steps_ret | apply steps_hashChangedSince].
Qed.

(** What is asked of the relation: the steps that touch the state. *)
Hypothesis R_record : forall a, steps R (record a).
Hypothesis R_emit : forall h,
  steps R (ev <- gets (fun st => onAdd (self st)) ;; emitAsync ev h)
  /\ steps R (ev <- gets (fun st => onRemove (self st)) ;; emitAsync ev h).
Hypothesis R_assign : forall h s,
  steps R (set_hash (Some h) ;;; set_sequence (Some s)).

Lemma steps_assign_then {A} h s (k : M A) :
  steps R k -> steps R (set_hash (Some h) ;;; set_sequence (Some s) ;;; k).
Proof.
  intros Hk st. pose proof (R_assign h s st) as H1.
  unfold bind in *; simpl in *.
  etransitivity; [exact H1 | apply Hk].
Qed.

Lemma steps_add h : steps R (add h).
Proof. unfold add. apply steps_bind; [apply R_record | intros _; apply R_emit]. Qed.

Lemma steps_remove h : steps R (remove h).
Proof. unfold remove. apply steps_bind; [apply R_record | intros _; apply R_emit]. Qed.

Lemma steps_check_signal signal : steps R (check_signal signal).
Proof.
  unfold check_signal. apply steps_bind; [apply steps_gets | intros b].
  apply steps_bind; [apply R_record | intros _; apply steps_ret].
Qed.

Lemma steps_unwind signal old fork iter : steps R (unwind signal old fork iter).
Proof.
  induction iter as [|x iter IH]; simpl; [apply steps_ret|].
  apply steps_bind; [apply steps_check_signal | intros [|]].
  - apply steps_bind; [apply steps_hashChangedSince | intros r; apply steps_ret].
  - destruct (Buffer.equals _ _); [exact IH|].
    apply steps_bind; [apply steps_remove | intros _].
    apply steps_assign_then, IH.
Qed.

Lemma steps_rewind signal old fork iter : steps R (rewind signal old fork iter).
Proof.
  induction iter as [|x iter IH]; simpl; [apply steps_ret|].
  apply steps_bind; [apply steps_check_signal | intros [|]].
  - apply steps_bind; [apply steps_hashChangedSince | intros r; apply steps_ret].
  - destruct (Buffer.equals _ _); [exact IH|].
    apply steps_bind; [apply steps_add | intros _].
    apply steps_assign_then, IH.
Qed.

Lemma steps_bootstrap : steps R bootstrap.
Proof.
  unfold bootstrap. apply steps_bind; [apply steps_gets | intros [h|]];
    [apply steps_ret|].
  apply steps_bind; [apply steps_gets | intros g].
  apply steps_bind; [apply steps_add | intros _].
  intros st. pose proof (R_assign
    (LocalBlockHeader.hash (Blockchain.genesis (this_chain st)))
    (LocalBlockHeader.sequence (Blockchain.genesis (this_chain st))) st) as H.
  exact H.
Qed.

Lemma steps_reconcile signal old : steps R (reconcile signal old).
Proof.
  apply steps_reconcile_loops; intros fork iter;
    [apply steps_unwind | apply steps_rewind].
Qed.

Lemma steps_update signal : steps R (update signal).
Proof.
  unfold update. apply steps_bind; [apply steps_gets | intros old].
  apply steps_bind; [apply steps_bootstrap | intros _; apply steps_reconcile].
Qed.

End Steps.

(** ** The frame, the shape of the cursor and invariants of the environment *)

#[local] Instance same_frame_pre : PreOrder same_frame.
Proof.
  split.
  - intros st; repeat split.
  - intros a b c (H1 & H2 & H3 & H4 & H5) (K1 & K2 & K3 & K4 & K5).
    repeat split; congruence.
Qed.

Lemma update_same_frame signal st : same_frame st (snd (update signal st)).
Proof.
  apply steps_update; try exact same_frame_pre.
  - intros a st'; repeat split.
  - intros h; split; intros st'; unfold bind, gets, emitAsync; simpl;
      destruct (run_handlers _ _ _); repeat split.
  - intros h s st'; repeat split.
Qed.

#[local] Instance cursor_moves_pre : PreOrder cursor_moves.
Proof.
  split.
  - intros st; left; reflexivity.
  - intros a b c [H1|H1] [H2|H2].
    + left; congruence.
    + right; exact H2.
    + right. rewrite H2. exact H1.
    + right; exact H2.
Qed.

Lemma update_cursor_moves signal st : cursor_moves st (snd (update signal st)).
Proof.
  apply steps_update; try exact cursor_moves_pre.
  - intros a st'; left; reflexivity.
  - intros h; split; intros st'; unfold bind, gets, emitAsync; simpl;
      destruct (run_handlers _ _ _); left; reflexivity.
  - intros h s st'; right; exists h, s; reflexivity.
Qed.

Lemma run_handlers_keeps (I : Env -> Prop) (hs : list Handler) (h : Header) :
  Forall (keeps I) hs -> forall e, I e -> I (snd (run_handlers hs h e)).
Proof.
  induction 1 as [|hd hs Hhd _ IH]; intros e He; simpl; [exact He|].
  destruct (hd h e) as [e'|] eqn:E; [|exact He].
  apply IH. exact (Hhd h e e' He E).
Qed.

#[local] Instance stays_settled_pre (I : Env -> Prop) : PreOrder (stays_settled I).
Proof. split; [intros st H; exact H | intros a b c H1 H2 H; exact (H2 (H1 H))]. Qed.

(** ** One turn of each loop *)

Lemma unwind_turn signal old fork x iter st :
  signal_aborted signal (env st) = false ->
  unwind signal old fork (x :: iter) st =
    if not_fork fork x then
      match run_handlers (onRemove (self st)) x (env st) with
      | (Normal _, e) =>
          unwind signal old fork iter
            (moved st (after_remove x) e [SignalChecked false; Emitted (Remove x)])
      | (Throw err, e) =>
          (Throw err, disturbed st e [SignalChecked false; Emitted (Remove x)])
      end
    else unwind signal old fork iter (noted st [SignalChecked false]).
Proof.
  intros Hs. unfold not_fork. cbn [unwind]. unfold bind at 1.
  unfold check_signal, bind, gets, record, ret; simpl. rewrite Hs.
  destruct (Buffer.equals _ _); simpl; [reflexivity|].
  unfold remove, bind, record, gets, emitAsync, set_hash, set_sequence; simpl.
  destruct (run_handlers _ _ _) as [[[]|err] e]; simpl;
    unfold moved, disturbed; simpl; rewrite <- app_assoc; reflexivity.
Qed.

Lemma rewind_turn signal old fork x iter st :
  signal_aborted signal (env st) = false ->
  rewind signal old fork (x :: iter) st =
    if not_fork fork x then
      match run_handlers (onAdd (self st)) x (env st) with
      | (Normal _, e) =>
          rewind signal old fork iter
            (moved st (after_add x) e [SignalChecked false; Emitted (Add x)])
      | (Throw err, e) =>
          (Throw err, disturbed st e [SignalChecked false; Emitted (Add x)])
      end
    else rewind signal old fork iter (noted st [SignalChecked false]).
Proof.
  intros Hs. unfold not_fork. cbn [rewind]. unfold bind at 1.
  unfold check_signal, bind, gets, record, ret; simpl. rewrite Hs.
  destruct (Buffer.equals _ _); simpl; [reflexivity|].
  unfold add, bind, record, gets, emitAsync, set_hash, set_sequence; simpl.
  destruct (run_handlers _ _ _) as [[[]|err] e]; simpl;
    unfold moved, disturbed; simpl; rewrite <- app_assoc; reflexivity.
Qed.

Lemma unwind_turn_aborted signal old fork x iter st :
  signal_aborted signal (env st) = true ->
  unwind signal old fork (x :: iter) st = cancelled old st.
Proof.
  intros Hs. cbn [unwind]. unfold bind at 1.
  unfold check_signal, bind, gets, record, ret; simpl. rewrite Hs.
  unfold cancelled, noted. destruct (hashChangedSince _ _) as [[r|err] st']; reflexivity.
Qed.

Lemma rewind_turn_aborted signal old fork x iter st :
  signal_aborted signal (env st) = true ->
  rewind signal old fork (x :: iter) st = cancelled old st.
Proof.
  intros Hs. cbn [rewind]. unfold bind at 1.
  unfold check_signal, bind, gets, record, ret; simpl. rewrite Hs.
  unfold cancelled, noted. destruct (hashChangedSince _ _) as [[r|err] st']; reflexivity.
Qed.

(** ** The branches of [update] *)

Lemma update_seeded signal st h :
  hash (self st) = Some h -> update signal st = reconcile signal (Some h) st.
Proof.
  intros H. unfold update, bootstrap, bind, gets, ret. rewrite H. reflexivity.
Qed.

Lemma update_unseeded signal st :
  hash (self st) = None ->
  update signal st =
    let g := Blockchain.genesis (this_chain st) in
    match run_handlers (onAdd (self st)) g (env st) with
    | (Normal _, e) =>
        reconcile signal None
          (moved st (after_add (Blockchain.genesis (chains e (chain (self st))))) e
             [Emitted (Add g)])
    | (Throw err, e) => (Throw err, disturbed st e [Emitted (Add g)])
    end.
Proof.
  intros H. unfold update, bootstrap, bind, gets. rewrite H.
  unfold add, bind, record, gets, emitAsync, set_hash, set_sequence; simpl.
  destruct (run_handlers _ _ _) as [[[]|err] e]; reflexivity.
Qed.

Lemma reconcile_same signal old st h :
  hash (self st) = Some h ->
  Buffer.equals (LocalBlockHeader.hash (Blockchain.head (this_chain st))) h = true ->
  reconcile signal old st = (Normal (mkResult false), st).
Proof.
  intros H E. unfold reconcile, bind, gets; simpl. rewrite H, E. reflexivity.
Qed.

Lemma reconcile_missing signal old st h :
  hash (self st) = Some h ->
  Buffer.equals (LocalBlockHeader.hash (Blockchain.head (this_chain st))) h = false ->
  Blockchain.getHeader (this_chain st) h = None ->
  reconcile signal old st = (Throw (AssertionError (head_not_found h)), st).
Proof.
  intros H E G. unfold reconcile, bind, gets; simpl. rewrite H, E, G. reflexivity.
Qed.

Lemma reconcile_disjoint signal old st h cur lin :
  hash (self st) = Some h ->
  Buffer.equals (LocalBlockHeader.hash (Blockchain.head (this_chain st))) h = false ->
  Blockchain.getHeader (this_chain st) h = Some cur ->
  Blockchain.findFork (this_chain st) cur (Blockchain.head (this_chain st)) = (None, lin) ->
  reconcile signal old st = (Normal (mkResult false), st).
Proof.
  intros H E G F. unfold reconcile, bind, gets; simpl. rewrite H, E, G, F. reflexivity.
Qed.

Lemma reconcile_fork signal old st h cur fork lin :
  hash (self st) = Some h ->
  Buffer.equals (LocalBlockHeader.hash (Blockchain.head (this_chain st))) h = false ->
  Blockchain.getHeader (this_chain st) h = Some cur ->
  Blockchain.findFork (this_chain st) cur (Blockchain.head (this_chain st))
    = (Some fork, lin) ->
  reconcile signal old st =
    match (if negb lin
           then unwind signal old fork (Blockchain.iterateFrom (this_chain st) cur fork) st
           else (Normal None, st)) with
    | (Normal (Some r), st1) => (Normal r, st1)
    | (Normal None, st1) =>
        match rewind signal old fork
                (Blockchain.iterateTo (this_chain st1) fork (Blockchain.head (this_chain st)))
                st1 with
        | (Normal (Some r), st2) => (Normal r, st2)
        | (Normal None, st2) => hashChangedSince old st2
        | (Throw err, st2) => (Throw err, st2)
        end
    | (Throw err, st1) => (Throw err, st1)
    end.
Proof.
  intros H E G F. unfold reconcile, bind, gets; simpl. rewrite H, E, G, F.
  destruct (negb lin); simpl.
  - destruct (unwind _ _ _ _ _) as [[[r|]|err] st1]; simpl; try reflexivity.
    destruct (rewind _ _ _ _ _) as [[[r|]|err] st2]; reflexivity.
  - destruct (rewind _ _ _ _ _) as [[[r|]|err] st2]; reflexivity.
Qed.

(** ** A pass that is not cancelled *)

Lemma events_app (a b : list Action) : events (a ++ b) = events a ++ events b.
Proof.
  induction a as [|[c|e] a IH]; simpl; [reflexivity | exact IH | now rewrite IH].
Qed.

Lemma settled_moved I st c e l :
  settled I st -> I e -> settled I (moved st c e l).
Proof. intros [_ H] He. split; [exact He | exact H]. Qed.

Lemma settled_noted I st l : settled I st -> settled I (noted st l).
Proof. intros [He H]. split; [exact He | exact H]. Qed.

Section Uncancelled.

Variable I : Env -> Prop.
Variable signal : option AbortSignal.
Variable old : option Buffer.t.
Variable fork : Header.
Hypothesis never_aborted : forall e, I e -> signal_aborted signal e = false.

Lemma unwind_completes iter : forall st r st',
  settled I st ->
  unwind signal old fork iter st = (Normal r, st') ->
  r = None
  /\ settled I st'
  /\ chain (self st') = chain (self st)
  /\ events (actions st') = events (actions st) ++ map Remove (others fork iter)
  /\ cursor st' = cursor_after after_remove (others fork iter) (cursor st).
Proof.
  induction iter as [|x iter IH]; intros st r st' Hst Hrun.
  - injection Hrun as <- <-. simpl. rewrite app_nil_r. auto.
  - rewrite unwind_turn in Hrun by (apply never_aborted, Hst).
    unfold others; cbn [filter]; fold (others fork iter).
    destruct (not_fork fork x).
    + destruct (run_handlers _ _ _) as [[[]|err] e] eqn:E; [|discriminate].
      assert (He : I e).
      { pose proof (run_handlers_keeps I (onRemove (self st)) x) as K.
        destruct Hst as [H1 H2]. unfold handlers in H2.
        apply Forall_app in H2 as [_ H2]. specialize (K H2 _ H1).
        rewrite E in K. exact K. }
      apply IH in Hrun; [|now apply settled_moved].
      destruct Hrun as (-> & S' & C' & Ev & Cu).
      split; [reflexivity|]. split; [exact S'|]. split; [exact C'|].
      split; [|exact Cu].
      rewrite Ev. simpl. rewrite events_app, <- app_assoc. reflexivity.
    + apply IH in Hrun; [|now apply settled_noted].
      destruct Hrun as (-> & S' & C' & Ev & Cu).
      split; [reflexivity|]. split; [exact S'|]. split; [exact C'|].
      split; [|exact Cu].
      rewrite Ev. simpl. rewrite events_app, app_nil_r. reflexivity.
Qed.

Lemma rewind_completes iter : forall st r st',
  settled I st ->
  rewind signal old fork iter st = (Normal r, st') ->
  r = None
  /\ settled I st'
  /\ chain (self st') = chain (self st)
  /\ events (actions st') = events (actions st) ++ map Add (others fork iter)
  /\ cursor st' = cursor_after after_add (others fork iter) (cursor st).
Proof.
  induction iter as [|x iter IH]; intros st r st' Hst Hrun.
  - injection Hrun as <- <-. simpl. rewrite app_nil_r. auto.
  - rewrite rewind_turn in Hrun by (apply never_aborted, Hst).
    unfold others; cbn [filter]; fold (others fork iter).
    destruct (not_fork fork x).
    + destruct (run_handlers _ _ _) as [[[]|err] e] eqn:E; [|discriminate].
      assert (He : I e).
      { pose proof (run_handlers_keeps I (onAdd (self st)) x) as K.
        destruct Hst as [H1 H2]. unfold handlers in H2.
        apply Forall_app in H2 as [H2 _]. specialize (K H2 _ H1).
        rewrite E in K. exact K. }
      apply IH in Hrun; [|now apply settled_moved].
      destruct Hrun as (-> & S' & C' & Ev & Cu).
      split; [reflexivity|]. split; [exact S'|]. split; [exact C'|].
      split; [|exact Cu].
      rewrite Ev. simpl. rewrite events_app, <- app_assoc. reflexivity.
    + apply IH in Hrun; [|now apply settled_noted].
      destruct Hrun as (-> & S' & C' & Ev & Cu).
      split; [reflexivity|]. split; [exact S'|]. split; [exact C'|].
      split; [|exact Cu].
      rewrite Ev. simpl. rewrite events_app, app_nil_r. reflexivity.
Qed.

(** A completed pass with a fork: the removals of the old branch, then the
    additions of the new one, the latter read from the store as the
    handlers of the removals left it. *)
Lemma reconcile_completes st h cur lin r st' :
  settled I st ->
  hash (self st) = Some h ->
  Buffer.equals (LocalBlockHeader.hash (Blockchain.head (this_chain st))) h = false ->
  Blockchain.getHeader (this_chain st) h = Some cur ->
  Blockchain.findFork (this_chain st) cur (Blockchain.head (this_chain st))
    = (Some fork, lin) ->
  reconcile signal old st = (Normal r, st') ->
  exists e1,
    I e1
    /\ let removed :=
         if lin then [] else others fork (Blockchain.iterateFrom (this_chain st) cur fork) in
       let added :=
         others fork
           (Blockchain.iterateTo (chains e1 (chain (self st))) fork
              (Blockchain.head (this_chain st))) in
       events (actions st') = events (actions st) ++ map Remove removed ++ map Add added
       /\ cursor st' = cursor_after after_add added (cursor_after after_remove removed (cursor st)).
Proof.
  intros Hst H E G F Hrun.
  rewrite (reconcile_fork _ _ _ _ _ _ _ H E G F) in Hrun.
  destruct lin; simpl in Hrun.
  - destruct (rewind _ _ _ _ _) as [[[r2|]|err] st2] eqn:E2; try discriminate.
    + apply rewind_completes in E2; [|exact Hst]. destruct E2 as [[=] _].
    + apply rewind_completes in E2; [|exact Hst].
      destruct E2 as (_ & S2 & C2 & Ev & Cu).
      exists (env st). split; [apply Hst|]. simpl.
      assert (T : actions st' = actions st2 /\ cursor st' = cursor st2).
      { destruct old as [o|]; simpl in Hrun.
        - unfold bind, gets in Hrun; simpl in Hrun.
          destruct (hash (self st2)); inversion Hrun; subst; auto.
        - inversion Hrun; subst; auto. }
      destruct T as [-> ->]. split; assumption.
  - destruct (unwind _ _ _ _ _) as [[[r1|]|err] st1] eqn:E1; try discriminate.
    + apply unwind_completes in E1; [|exact Hst]. destruct E1 as [[=] _].
    + apply unwind_completes in E1; [|exact Hst].
      destruct E1 as (_ & S1 & C1 & Ev1 & Cu1).
      destruct (rewind _ _ _ _ _) as [[[r2|]|err] st2] eqn:E2; try discriminate.
      * apply rewind_completes in E2; [|exact S1]. destruct E2 as [[=] _].
      * apply rewind_completes in E2; [|exact S1].
        destruct E2 as (_ & S2 & C2 & Ev2 & Cu2).
        exists (env st1). split; [apply S1|]. simpl.
        assert (T : actions st' = actions st2 /\ cursor st' = cursor st2).
        { destruct old as [o|]; simpl in Hrun.
          - unfold bind, gets in Hrun; simpl in Hrun.
            destruct (hash (self st2)); inversion Hrun; subst; auto.
          - inversion Hrun; subst; auto. }
        destruct T as [-> ->]. unfold this_chain in Ev2, Cu2. rewrite C1 in Ev2, Cu2.
        rewrite Ev2, Ev1, Cu2, Cu1, <- app_assoc. split; reflexivity.
Qed.

End Uncancelled.

(** ** Scenario 4: a reorganization of depth 3 *)

(** C1.  The cursor is at [A3] on G, A1, A2, A3 and the head of the store
    has switched to [B4] on G, B1, B2, B3, B4.  A call of [update] that
    completes and during which the signal is not aborted emits
    Remove(A3), Remove(A2), Remove(A1), Add(B1), Add(B2), Add(B3), Add(B4),
    in that order: the removals come first and nothing is emitted for the
    fork [G]. *)
Theorem reorg_depth_3_events signal st r :
  hash (self st) = Some (LocalBlockHeader.hash Scenario.A3) ->
  settled (fun e => chains e (chain (self st)) = Scenario.reorged
                    /\ signal_aborted signal e = false) st ->
  fst (update signal st) = Normal r ->
  events (actions (snd (update signal st))) =
    events (actions st)
    ++ [Remove Scenario.A3; Remove Scenario.A2; Remove Scenario.A1;
        Add Scenario.B1; Add Scenario.B2; Add Scenario.B3; Add Scenario.B4].
Proof.
  intros H Hst Hrun.
  destruct (update signal st) as [c st'] eqn:Hup. simpl in Hrun |- *. subst c.
  rewrite (update_seeded _ _ _ H) in Hup.
  assert (HS : this_chain st = Scenario.reorged) by apply Hst.
  eapply reconcile_completes
    with (I := fun e => chains e (chain (self st)) = Scenario.reorged
                        /\ signal_aborted signal e = false)
         (cur := Scenario.A3) (fork := Scenario.G) (lin := false) in Hup.
  - destruct Hup as (e1 & [He1 _] & Ev). cbv zeta in Ev. destruct Ev as [Ev _].
    rewrite HS, He1 in Ev. exact Ev.
  - intros e He. apply He.
  - exact Hst.
  - exact H.
  - rewrite HS. reflexivity.
  - rewrite HS. reflexivity.
  - rewrite HS. reflexivity.
Qed.

Lemma reorg_depth_3_events_witness :
  events (actions (snd (update None
    (Scenario.seeded Scenario.A3 Scenario.reorged false)))) =
  [Remove Scenario.A3; Remove Scenario.A2; Remove Scenario.A1;
   Add Scenario.B1; Add Scenario.B2; Add Scenario.B3; Add Scenario.B4].
Proof.
  apply (reorg_depth_3_events None
           (Scenario.seeded Scenario.A3 Scenario.reorged false)
           (mkResult true)).
  - reflexivity.
  - split; [split; reflexivity|].
    apply Forall_cons; [|apply Forall_cons; [|apply Forall_nil]];
      intros h e e' He [= <-]; exact He.
  - vm_compute. reflexivity.
Defined.

(** ** What [update] leaves alone *)

(** C10.  [update] assigns only [hash] and [sequence]: the chain reference,
    the logger and the two events with their handlers are at return what
    they were at entry, however the call ends. *)
Theorem update_assigns_only_cursor signal st :
  chain (self (snd (update signal st))) = chain (self st)
  /\ logger (self (snd (update signal st))) = logger (self st)
  /\ onAdd (self (snd (update signal st))) = onAdd (self st)
  /\ onRemove (self (snd (update signal st))) = onRemove (self st).
Proof.
  destruct (update_same_frame signal st) as (H1 & H2 & H3 & H4 & _). auto.
Qed.

(** ** The head has not moved *)

(** C9.  When the hash of the cursor is the hash of the head of the store,
    [update] returns [{ hashChanged: false }] and emits nothing; nothing of
    the state changes. *)
Theorem update_at_head_is_noop signal st h :
  hash (self st) = Some h ->
  LocalBlockHeader.hash (Blockchain.head (this_chain st)) = h ->
  fst (update signal st) = Normal (mkResult false)
  /\ events (actions (snd (update signal st))) = events (actions st)
  /\ snd (update signal st) = st.
Proof.
  intros H E. rewrite (update_seeded _ _ _ H).
  rewrite (reconcile_same _ _ _ _ H) by (apply Buffer_equals_eq, E). auto.
Qed.

Lemma update_at_head_is_noop_witness :
  fst (update None
         (Scenario.seeded Scenario.G Scenario.only_genesis false))
  = Normal (mkResult false)
  /\ events (actions (snd (update None
         (Scenario.seeded Scenario.G Scenario.only_genesis false)))) = [].
Proof.
  destruct (update_at_head_is_noop None
              (Scenario.seeded Scenario.G Scenario.only_genesis false)
              (LocalBlockHeader.hash Scenario.G)) as (H1 & H2 & _).
  - reflexivity.
  - reflexivity.
  - split; [exact H1 | exact H2].
Defined.

(** ** The value returned by a cold start *)

(** C5.  An unseeded processor on a store whose head is its genesis block:
    the call emits Add(G) and moves the cursor from unseeded to the genesis
    block, and returns [{ hashChanged: false }]. *)
Theorem cold_start_reports_no_change signal st r :
  hash (self st) = None ->
  settled (fun e => chains e (chain (self st)) = Scenario.only_genesis) st ->
  fst (update signal st) = Normal r ->
  r = mkResult false
  /\ cursor (snd (update signal st)) = (Some (LocalBlockHeader.hash Scenario.G), Some 1)
  /\ cursor (snd (update signal st)) <> cursor st
  /\ events (actions (snd (update signal st))) = events (actions st) ++ [Add Scenario.G].
Proof.
  intros H Hst Hrun. rewrite (update_unseeded _ _ H) in Hrun |- *.
  destruct Hst as [He Hh]. cbv zeta in *.
  pose proof (run_handlers_keeps
                (fun e => chains e (chain (self st)) = Scenario.only_genesis)
                (onAdd (self st)) (Blockchain.genesis (this_chain st))) as K.
  unfold handlers in Hh. apply Forall_app in Hh as [Ha _].
  specialize (K Ha _ He).
  destruct (run_handlers _ _ _) as [[[]|err] e]; simpl in K; [|discriminate].
  rewrite K in *. unfold this_chain in *. rewrite He in *.
  rewrite (reconcile_same _ _ _ (LocalBlockHeader.hash Scenario.G)) in Hrun |- *;
    try reflexivity; try (unfold this_chain; simpl; rewrite K; reflexivity).
  simpl in Hrun. injection Hrun as <-.
  split; [reflexivity|]. split; [reflexivity|]. split.
  - unfold cursor at 2. rewrite H. simpl. discriminate.
  - simpl. rewrite events_app. reflexivity.
Qed.

Lemma cold_start_reports_no_change_witness :
  fst (update None (Scenario.unseeded Scenario.only_genesis false)) = Normal (mkResult false)
  /\ cursor (snd (update None (Scenario.unseeded Scenario.only_genesis false)))
     <> cursor (Scenario.unseeded Scenario.only_genesis false).
Proof.
  destruct (cold_start_reports_no_change None
              (Scenario.unseeded Scenario.only_genesis false) (mkResult false)) as (_ & _ & H & _).
  - reflexivity.
  - split; [reflexivity|].
    apply Forall_cons; [|apply Forall_cons; [|apply Forall_nil]];
      intros h e e' He [= <-]; exact He.
  - vm_compute. reflexivity.
  - split; [vm_compute; reflexivity | exact H].
Defined.

(** ** The shapes of the cursor *)

Lemma step_cursor_moves o st : cursor_moves st (step o st).
Proof.
  destruct o as [hd|hd|f|signal]; simpl;
    [left; reflexivity | left; reflexivity | left; reflexivity |].
  apply update_cursor_moves.
Qed.

Lemma cursor_moves_seeded st st' :
  cursor_moves st st' -> hash (self st) <> None -> hash (self st') <> None.
Proof.
  unfold cursor_moves, cursor. intros [H|(h & s & H)] Hs.
  - injection H as H _. congruence.
  - injection H as H _. congruence.
Qed.

Lemma run_seeded ops : forall st,
  hash (self st) <> None -> hash (self (run ops st)) <> None.
Proof.
  induction ops as [|o ops IH]; intros st H; simpl; [exact H|].
  apply IH. exact (cursor_moves_seeded _ _ (step_cursor_moves o st) H).
Qed.

Lemma run_cursor_moves ops : forall st, cursor_moves st (run ops st).
Proof.
  induction ops as [|o ops IH]; intros st; simpl; [reflexivity|].
  etransitivity; [apply step_cursor_moves | apply IH].
Qed.

(** C6, as the code has it.  The constructor takes a hash and no sequence,
    so a processor constructed with a head has a hash and a null sequence
    until an [update] moves the cursor.  After construction and after every
    operation the cursor is Unseeded, or At(hash, sequence), or still the
    pair (head, null) the constructor made of a non-null head; and a cursor
    that has a hash keeps having one. *)
Theorem cursor_shapes opt_logger c head e ops :
  (unseeded_or_at (self (run ops (fresh opt_logger c head e)))
   \/ (head <> None /\ cursor (run ops (fresh opt_logger c head e)) = (head, None)))
  /\ (head <> None -> hash (self (run ops (fresh opt_logger c head e))) <> None)
  /\ (forall more,
        hash (self (run ops (fresh opt_logger c head e))) <> None ->
        hash (self (run more (run ops (fresh opt_logger c head e)))) <> None).
Proof.
  split; [|split].
  - destruct (run_cursor_moves ops (fresh opt_logger c head e)) as [H|(h & s & H)].
    + rewrite H. unfold unseeded_or_at. unfold cursor in H. simpl in H.
      injection H as -> ->. destruct head as [h|].
      * right. split; [discriminate | reflexivity].
      * left. left. split; reflexivity.
    + left. right. unfold cursor in H. injection H as -> ->. split; discriminate.
  - intros H. apply run_seeded. exact H.
  - intros more. apply run_seeded.
Qed.

Lemma cursor_shapes_witness :
  hash (self (run [Call None]
    (fresh None 0%nat (Some (LocalBlockHeader.hash Scenario.A3))
       (Scenario.env_of Scenario.reorged false)))) <> None.
Proof.
  destruct (cursor_shapes None 0%nat (Some (LocalBlockHeader.hash Scenario.A3))
              (Scenario.env_of Scenario.reorged false) [Call None]) as (_ & H & _).
  apply H. discriminate.
Defined.

(** C6, as the specification states it, fails right after construction with a head:
    the hash is set and the sequence is null. *)
Lemma constructed_with_head_is_neither :
  ~ unseeded_or_at (constructor None 0%nat (Some (LocalBlockHeader.hash Scenario.A1))).
Proof.
  intros [[H _]|[_ H]]; [discriminate H | apply H; reflexivity].
Qed.

(** ** The header of the cursor is not in the store *)

(** C7, as the code has it.  When the header of the cursor is looked up and
    is absent, the call throws the assertion error and the cursor is what it
    was at the lookup: for a processor seeded at entry nothing of the state
    has changed; an unseeded processor has emitted Add(genesis) before and
    has its cursor on the genesis block. *)
Theorem missing_header_throws signal st :
  (forall h,
     hash (self st) = Some h ->
     Buffer.equals (LocalBlockHeader.hash (Blockchain.head (this_chain st))) h = false ->
     Blockchain.getHeader (this_chain st) h = None ->
     update signal st = (Throw (AssertionError (head_not_found h)), st))
  /\ (forall e,
        hash (self st) = None ->
        run_handlers (onAdd (self st)) (Blockchain.genesis (this_chain st)) (env st)
          = (Normal tt, e) ->
        let S := chains e (chain (self st)) in
        let g := Blockchain.genesis S in
        Buffer.equals (LocalBlockHeader.hash (Blockchain.head S)) (LocalBlockHeader.hash g)
          = false ->
        Blockchain.getHeader S (LocalBlockHeader.hash g) = None ->
        update signal st =
          (Throw (AssertionError (head_not_found (LocalBlockHeader.hash g))),
           moved st (after_add g) e [Emitted (Add (Blockchain.genesis (this_chain st)))])).
Proof.
  split.
  - intros h H E G. rewrite (update_seeded _ _ _ H).
    exact (reconcile_missing _ _ _ _ H E G).
  - intros e H Hr S g E G. rewrite (update_unseeded _ _ H). cbv zeta. rewrite Hr.
    apply reconcile_missing; [reflexivity | exact E | exact G].
Qed.

Lemma missing_header_throws_witness :
  update None
    (Scenario.seeded Scenario.G Scenario.broken false)
  = (Throw (AssertionError (head_not_found (LocalBlockHeader.hash Scenario.G))),
     Scenario.seeded Scenario.G Scenario.broken false).
Proof.
  apply (missing_header_throws None
           (Scenario.seeded Scenario.G Scenario.broken false)).
  - reflexivity.
  - reflexivity.
  - reflexivity.
Defined.

(** C7, as the specification states it, fails for an unseeded processor: the lookup of
    the genesis hash finds nothing, the call throws, and the cursor has been
    moved from unseeded to the genesis block. *)
Lemma missing_genesis_moves_cursor :
  Blockchain.getHeader Scenario.broken (LocalBlockHeader.hash Scenario.G) = None
  /\ fst (update None (Scenario.unseeded Scenario.broken false))
     = Throw (AssertionError (head_not_found (LocalBlockHeader.hash Scenario.G)))
  /\ cursor (Scenario.unseeded Scenario.broken false) = (None, None)
  /\ cursor (snd (update None (Scenario.unseeded Scenario.broken false)))
     = (Some (LocalBlockHeader.hash Scenario.G), Some 1).
Proof. vm_compute. repeat split. Qed.

(** ** The head is in another tree *)

Lemma update_logs_nothing signal st : logged (snd (update signal st)) = logged st.
Proof. apply update_same_frame. Qed.

(** C8, as the code has it.  When [findFork] finds no fork for a processor
    that was seeded at entry, the call returns [{ hashChanged: false }] and
    nothing of the state has changed: no event, the same cursor, and no log
    record, since [update] never writes to its logger. *)
Theorem disjoint_fork_is_noop signal st h cur lin :
  hash (self st) = Some h ->
  Buffer.equals (LocalBlockHeader.hash (Blockchain.head (this_chain st))) h = false ->
  Blockchain.getHeader (this_chain st) h = Some cur ->
  Blockchain.findFork (this_chain st) cur (Blockchain.head (this_chain st)) = (None, lin) ->
  fst (update signal st) = Normal (mkResult false)
  /\ events (actions (snd (update signal st))) = events (actions st)
  /\ cursor (snd (update signal st)) = cursor st
  /\ logged (snd (update signal st)) = logged st
  /\ snd (update signal st) = st.
Proof.
  intros H E G F. rewrite (update_seeded _ _ _ H).
  rewrite (reconcile_disjoint _ _ _ _ _ _ H E G F). simpl. auto.
Qed.

Lemma disjoint_fork_is_noop_witness :
  fst (update None
         (Scenario.seeded Scenario.A1 Scenario.disjoint false))
  = Normal (mkResult false).
Proof.
  apply (disjoint_fork_is_noop None
           (Scenario.seeded Scenario.A1 Scenario.disjoint false)
           (LocalBlockHeader.hash Scenario.A1) Scenario.A1 false).
  - reflexivity.
  - reflexivity.
  - reflexivity.
  - reflexivity.
Defined.

(** C8, as the specification states it, fails on the disjoint store of scenario 6: the
    call returns and no warning has been logged. *)
Lemma disjoint_fork_logs_no_warning :
  Blockchain.findFork Scenario.disjoint Scenario.A1 Scenario.C1 = (None, false)
  /\ fst (update None (Scenario.seeded Scenario.A1 Scenario.disjoint false))
     = Normal (mkResult false)
  /\ ~ warned (logged (Scenario.seeded Scenario.A1 Scenario.disjoint false))
        (logged (snd (update None (Scenario.seeded Scenario.A1 Scenario.disjoint false)))).
Proof.
  split; [reflexivity|]. split; [vm_compute; reflexivity|].
  intros (r & Hin & _). rewrite update_logs_nothing in Hin. exact Hin.
Qed.

(** ** The cursor after a completed pass *)

Lemma stays_settled_record I a : steps (stays_settled I) (record a).
Proof. intros st H; exact H. Qed.

Lemma stays_settled_emit I h :
  steps (stays_settled I) (ev <- gets (fun st => onAdd (self st)) ;; emitAsync ev h)
  /\ steps (stays_settled I) (ev <- gets (fun st => onRemove (self st)) ;; emitAsync ev h).
Proof.
  split; intros st [He Hh]; unfold bind, gets, emitAsync; simpl;
    unfold handlers in Hh; pose proof Hh as Hh'; apply Forall_app in Hh' as [Ha Hr].
  - pose proof (run_handlers_keeps I _ h Ha _ He) as K.
    destruct (run_handlers _ _ _); split; [exact K | exact Hh].
  - pose proof (run_handlers_keeps I _ h Hr _ He) as K.
    destruct (run_handlers _ _ _); split; [exact K | exact Hh].
Qed.

Lemma stays_settled_assign I h s :
  steps (stays_settled I) (set_hash (Some h) ;;; set_sequence (Some s)).
Proof. intros st H; exact H. Qed.

Lemma bootstrap_stays_settled I st : settled I st -> settled I (snd (bootstrap st)).
Proof.
  apply (steps_bootstrap (stays_settled I)).
  - apply stays_settled_record.
  - apply stays_settled_emit.
  - apply stays_settled_assign.
Qed.

Lemma update_stays_settled I signal st :
  settled I st -> settled I (snd (update signal st)).
Proof.
  apply (steps_update (stays_settled I)).
  - apply stays_settled_record.
  - apply stays_settled_emit.
  - apply stays_settled_assign.
Qed.

Lemma bootstrap_same_frame st : same_frame st (snd (bootstrap st)).
Proof.
  apply steps_bootstrap; try exact same_frame_pre.
  - intros a st'; repeat split.
  - intros h; split; intros st'; unfold bind, gets, emitAsync; simpl;
      destruct (run_handlers _ _ _); repeat split.
  - intros h s st'; repeat split.
Qed.

(** [update] is the bootstrap followed by the pass. *)
Lemma update_bootstrap signal st :
  update signal st =
    match bootstrap st with
    | (Normal _, st1) => reconcile signal (hash (self st)) st1
    | (Throw err, st1) => (Throw err, st1)
    end.
Proof. reflexivity. Qed.

Lemma cursor_after_last f (fork target : Header) l c0 :
  last l fork = target ->
  not_fork fork target = true ->
  cursor_after f (others fork l) c0 = f target.
Proof.
  intros Hl Hn.
  assert (Hne : l <> []).
  { intros ->. simpl in Hl. subst target. unfold not_fork in Hn.
    rewrite Buffer_equals_refl in Hn. discriminate. }
  rewrite (app_removelast_last fork Hne), Hl.
  unfold others, cursor_after. rewrite filter_app, fold_left_app. simpl.
  rewrite Hn. reflexivity.
Qed.

(** C2, as the code has it.  The head is read once, after the bootstrap, and
    a call that completes without the signal being aborted ends with the
    cursor on that header when a fork other than the head itself was found
    and the forward iterator yields the head last; when the hash of the
    head is already the hash of the cursor, the cursor stays as it is. *)
Theorem completed_pass_reaches_head (I : Env -> Prop) signal st r :
  settled I st ->
  (forall e, I e -> signal_aborted signal e = false) ->
  fst (update signal st) = Normal r ->
  let st1 := snd (bootstrap st) in
  let target := Blockchain.head (this_chain st1) in
  forall h, hash (self st1) = Some h ->
  (LocalBlockHeader.hash target = h ->
     hash (self (snd (update signal st))) = Some (LocalBlockHeader.hash target)
     /\ cursor (snd (update signal st)) = cursor st1)
  /\ (forall cur fork lin,
        LocalBlockHeader.hash target <> h ->
        Blockchain.getHeader (this_chain st1) h = Some cur ->
        Blockchain.findFork (this_chain st1) cur target = (Some fork, lin) ->
        LocalBlockHeader.hash target <> LocalBlockHeader.hash fork ->
        (forall e, I e ->
           last (Blockchain.iterateTo (chains e (chain (self st))) fork target) fork
             = target) ->
        cursor (snd (update signal st))
          = (Some (LocalBlockHeader.hash target), Some (LocalBlockHeader.sequence target)))
  /\ (forall cur lin,
        LocalBlockHeader.hash target <> h ->
        Blockchain.getHeader (this_chain st1) h = Some cur ->
        Blockchain.findFork (this_chain st1) cur target = (None, lin) ->
        cursor (snd (update signal st)) = cursor st1).
Proof.
  intros Hst Hno Hrun st1 target h Hh.
  pose proof (bootstrap_stays_settled I st Hst) as Hst1.
  pose proof (bootstrap_same_frame st) as (Hc & _).
  rewrite update_bootstrap in Hrun |- *.
  fold st1 in Hst1, Hc. subst target.
  destruct (bootstrap st) as [[[]|err] st1'] eqn:Hb; simpl in st1; subst st1;
    [|discriminate].
  split; [|split].
  - intros E. apply Buffer_equals_eq in E.
    rewrite (reconcile_same _ _ _ _ Hh E). simpl. split; [|reflexivity].
    apply Buffer_equals_eq in E. congruence.
  - intros cur fork lin E G F Hf Hlast.
    apply Buffer_equals_neq in E.
    destruct (reconcile signal (hash (self st)) st1') as [c st'] eqn:Hrec.
    simpl in Hrun |- *. subst c.
    eapply (reconcile_completes I) in Hrec; eauto.
    destruct Hrec as (e1 & He1 & Hrec). cbv zeta in Hrec. destruct Hrec as [_ Cu].
    rewrite Cu. rewrite Hc.
    apply (cursor_after_last after_add fork (Blockchain.head (this_chain st1')));
      [apply Hlast, He1|].
    unfold not_fork. apply negb_true_iff, Buffer_equals_neq. exact Hf.
  - intros cur lin E G F. apply Buffer_equals_neq in E.
    rewrite (reconcile_disjoint _ _ _ _ _ _ Hh E G F). reflexivity.
Qed.

Lemma completed_pass_reaches_head_witness :
  cursor (snd (update None
    (Scenario.unseeded Scenario.reorged false)))
  = (Some (LocalBlockHeader.hash Scenario.B4), Some 5).
Proof.
  destruct (completed_pass_reaches_head
              (fun e => chains e 0%nat = Scenario.reorged) None
              (Scenario.unseeded Scenario.reorged false)
              (mkResult true)) with (h := LocalBlockHeader.hash Scenario.G) as (_ & H & _).
  - split; [reflexivity|].
    apply Forall_cons; [|apply Forall_cons; [|apply Forall_nil]];
      intros h e e' He [= <-]; exact He.
  - reflexivity.
  - vm_compute. reflexivity.
  - reflexivity.
  - apply (H Scenario.G Scenario.G true).
    + discriminate.
    + reflexivity.
    + reflexivity.
    + discriminate.
    + intros e He. simpl. rewrite He. reflexivity.
Defined.

(** C2, as the specification states it, fails when the head is in another tree: the
    call completes, nothing was cancelled, and the cursor is still on [A1]
    while the head that was read is [C1]. *)
Lemma disjoint_fork_leaves_cursor_behind :
  fst (update None (Scenario.seeded Scenario.A1 Scenario.disjoint false))
    = Normal (mkResult false)
  /\ Blockchain.head (this_chain (Scenario.seeded Scenario.A1 Scenario.disjoint false))
     = Scenario.C1
  /\ cursor (snd (update None (Scenario.seeded Scenario.A1 Scenario.disjoint false)))
     = (Some (LocalBlockHeader.hash Scenario.A1), Some 2)
  /\ cursor (snd (update None (Scenario.seeded Scenario.A1 Scenario.disjoint false)))
     <> (Some (LocalBlockHeader.hash Scenario.C1), Some (LocalBlockHeader.sequence Scenario.C1)).
Proof.
  split; [vm_compute; reflexivity|]. split; [reflexivity|].
  split; [vm_compute; reflexivity|]. vm_compute. discriminate.
Qed.

(** ** Readings of the signal and emissions *)

Lemma guarded_from_mono ok tr : guarded_from false tr = true -> guarded_from ok tr = true.
Proof. destruct tr as [|[b|e] tr]; simpl; [auto | auto | discriminate]. Qed.

Lemma guarded_from_app a : forall ok b,
  guarded_from ok a = true -> guarded_from false b = true ->
  guarded_from ok (a ++ b) = true.
Proof.
  induction a as [|[c|e] a IH]; intros ok b Ha Hb; simpl in *.
  - now apply guarded_from_mono.
  - now apply IH.
  - apply andb_true_iff in Ha as [-> Ha]. simpl. now apply IH.
Qed.

Lemma hashChangedSince_state old st : snd (hashChangedSince old st) = st.
Proof.
  destruct old as [o|]; simpl; [|reflexivity].
  unfold bind, gets; simpl. destruct (hash (self st)); reflexivity.
Qed.

Lemma cancelled_state old st : snd (cancelled old st) = noted st [SignalChecked true].
Proof.
  unfold cancelled.
  pose proof (hashChangedSince_state old (noted st [SignalChecked true])) as H.
  destruct (hashChangedSince _ _) as [[r|err] st']; exact H.
Qed.

Lemma guarded_step_refl st : guarded_step st st.
Proof. exists []. rewrite app_nil_r. split; reflexivity. Qed.

Lemma guarded_step_trans a b c : guarded_step a b -> guarded_step b c -> guarded_step a c.
Proof.
  intros (t1 & E1 & G1) (t2 & E2 & G2). exists (t1 ++ t2). split.
  - rewrite E2, E1, app_assoc. reflexivity.
  - now apply guarded_from_app.
Qed.

#[local] Instance guarded_step_pre : PreOrder guarded_step.
Proof. split; [exact guarded_step_refl | exact guarded_step_trans]. Qed.

Lemma guarded_step_noted st c e l :
  guarded l = true -> guarded_step st (moved st c e l).
Proof. intros H. exists l. split; [reflexivity | exact H]. Qed.

Lemma unwind_guarded signal old fork iter :
  steps guarded_step (unwind signal old fork iter).
Proof.
  induction iter as [|x iter IH]; intros st; [apply guarded_step_refl|].
  destruct (signal_aborted signal (env st)) eqn:Hs.
  - rewrite unwind_turn_aborted, cancelled_state by exact Hs.
    exists [SignalChecked true]. split; reflexivity.
  - rewrite unwind_turn by exact Hs. destruct (not_fork fork x).
    + destruct (run_handlers _ _ _) as [[[]|err] e].
      * eapply guarded_step_trans; [|apply IH].
        now apply guarded_step_noted.
      * exists [SignalChecked false; Emitted (Remove x)]. split; reflexivity.
    + eapply guarded_step_trans; [|apply IH].
      exists [SignalChecked false]. split; reflexivity.
Qed.

Lemma rewind_guarded signal old fork iter :
  steps guarded_step (rewind signal old fork iter).
Proof.
  induction iter as [|x iter IH]; intros st; [apply guarded_step_refl|].
  destruct (signal_aborted signal (env st)) eqn:Hs.
  - rewrite rewind_turn_aborted, cancelled_state by exact Hs.
    exists [SignalChecked true]. split; reflexivity.
  - rewrite rewind_turn by exact Hs. destruct (not_fork fork x).
    + destruct (run_handlers _ _ _) as [[[]|err] e].
      * eapply guarded_step_trans; [|apply IH].
        now apply guarded_step_noted.
      * exists [SignalChecked false; Emitted (Add x)]. split; reflexivity.
    + eapply guarded_step_trans; [|apply IH].
      exists [SignalChecked false]. split; reflexivity.
Qed.

Lemma reconcile_guarded signal old : steps guarded_step (reconcile signal old).
Proof.
  apply steps_reconcile_loops; try exact guarded_step_pre.
  - intros fork iter; apply unwind_guarded.
  - intros fork iter; apply rewind_guarded.
Qed.

#[local] Instance quiet_step_pre : PreOrder quiet_step.
Proof.
  split.
  - intros [p e a l]. exists []. unfold noted; simpl. rewrite app_nil_r. auto.
  - intros a b c (l1 & -> & E1) (l2 & -> & E2). exists (l1 ++ l2). split.
    + unfold noted; simpl. rewrite app_assoc. reflexivity.
    + rewrite events_app, E1, E2. reflexivity.
Qed.

Lemma unwind_aborted signal old fork iter st :
  signal_aborted signal (env st) = true ->
  quiet_step st (snd (unwind signal old fork iter st)).
Proof.
  intros Hs. destruct iter as [|x iter]; [reflexivity|].
  rewrite unwind_turn_aborted, cancelled_state by exact Hs.
  exists [SignalChecked true]. auto.
Qed.

Lemma rewind_aborted signal old fork iter st :
  signal_aborted signal (env st) = true ->
  quiet_step st (snd (rewind signal old fork iter st)).
Proof.
  intros Hs. destruct iter as [|x iter]; [reflexivity|].
  rewrite rewind_turn_aborted, cancelled_state by exact Hs.
  exists [SignalChecked true]. auto.
Qed.

#[local] Instance quiet_when_aborted_pre signal : PreOrder (quiet_when_aborted signal).
Proof.
  split.
  - intros st _. reflexivity.
  - intros a b c H1 H2 Ha. specialize (H1 Ha). destruct H1 as (l1 & -> & E1).
    specialize (H2 Ha). etransitivity; [|exact H2]. exists l1. auto.
Qed.

Lemma reconcile_aborted signal old st :
  signal_aborted signal (env st) = true ->
  quiet_step st (snd (reconcile signal old st)).
Proof.
  apply (steps_reconcile_loops (quiet_when_aborted signal));
    try exact (quiet_when_aborted_pre signal).
  - intros fork iter st' Hs. now apply unwind_aborted.
  - intros fork iter st' Hs. now apply rewind_aborted.
Qed.

(** C4, as the code has it.  After the bootstrap, which emits Add(genesis)
    for an unseeded processor without reading the signal, every emission of
    the call comes immediately after a reading of the signal that found it
    not aborted.  So when the signal is aborted as the call begins, a seeded
    processor emits nothing and keeps its cursor, and an unseeded one emits
    Add(genesis) all the same. *)
Theorem emissions_follow_signal_checks signal st :
  (exists tail,
     actions (snd (update signal st)) =
       actions st
       ++ match hash (self st) with
          | Some _ => []
          | None => [Emitted (Add (Blockchain.genesis (this_chain st)))]
          end
       ++ tail
     /\ guarded tail = true)
  /\ (signal_aborted signal (env st) = true ->
      hash (self st) <> None ->
      events (actions (snd (update signal st))) = events (actions st)
      /\ cursor (snd (update signal st)) = cursor st).
Proof.
  split.
  - destruct (hash (self st)) as [h|] eqn:H.
    + rewrite (update_seeded _ _ _ H). apply reconcile_guarded.
    + rewrite (update_unseeded _ _ H). cbv zeta.
      destruct (run_handlers _ _ _) as [[[]|err] e].
      * match goal with |- context [reconcile ?s ?o ?x] =>
          destruct (reconcile_guarded s o x) as (tail & E & G) end.
        exists tail. split; [|exact G]. rewrite E. simpl.
        rewrite <- app_assoc. reflexivity.
      * exists []. split; reflexivity.
  - intros Hs Hh. destruct (hash (self st)) as [h|] eqn:H; [|contradiction].
    rewrite (update_seeded _ _ _ H).
    destruct (reconcile_aborted signal (Some h) st Hs) as (l & -> & E).
    split; [|reflexivity]. simpl. rewrite events_app, E, app_nil_r. reflexivity.
Qed.

Lemma emissions_follow_signal_checks_witness :
  events (actions (snd (update (Some 0%nat)
    (Scenario.seeded Scenario.A3 Scenario.reorged true)))) = []
  /\ cursor (snd (update (Some 0%nat)
    (Scenario.seeded Scenario.A3 Scenario.reorged true)))
     = (Some (LocalBlockHeader.hash Scenario.A3), Some 4).
Proof.
  destruct (emissions_follow_signal_checks (Some 0%nat)
    (Scenario.seeded Scenario.A3 Scenario.reorged true))
    as [_ H].
  apply H.
  - reflexivity.
  - discriminate.
Defined.

(** C4, as the specification states it, fails for an unseeded processor: the signal is
    aborted when the call begins, and Add(G) is emitted. *)
Lemma aborted_cold_start_emits_genesis :
  signal_aborted (Some 0%nat) (env (Scenario.unseeded Scenario.reorged true)) = true
  /\ events (actions (snd (update (Some 0%nat) (Scenario.unseeded Scenario.reorged true))))
     = [Add Scenario.G]
  /\ actions (snd (update (Some 0%nat) (Scenario.unseeded Scenario.reorged true)))
     = [Emitted (Add Scenario.G); SignalChecked true].
Proof. vm_compute. repeat split. Qed.

(** ** Balanced edit scripts *)

Lemma net_app H a b : net H (a ++ b) = net H a + net H b.
Proof. induction a as [|e a IH]; simpl; [reflexivity | rewrite IH; lia]. Qed.

Lemma balanced_nil : balanced [].
Proof. intros n H. rewrite firstn_nil. simpl. lia. Qed.

Lemma balanced_snoc evs e :
  balanced evs ->
  (forall H, 0 <= net H (evs ++ [e]) <= 1) ->
  balanced (evs ++ [e]).
Proof.
  intros Hb He n H. rewrite firstn_app.
  destruct (Nat.le_gt_cases n (List.length evs)) as [Hn|Hn].
  - replace (n - List.length evs)%nat with 0%nat by lia.
    simpl. rewrite app_nil_r. apply Hb.
  - rewrite firstn_all2 by lia.
    destruct (n - List.length evs)%nat as [|k] eqn:E; [lia|].
    simpl. rewrite firstn_nil. apply He.
Qed.

Lemma descending_tail x l : descending (x :: l) -> descending l.
Proof. destruct l as [|p l]; simpl; [auto | intros [_ H]; exact H]. Qed.

Lemma ascending_tail x l : ascending (x :: l) -> ascending l.
Proof. destruct l as [|p l]; simpl; [auto | intros [_ H]; exact H]. Qed.

Lemma descending_below x l :
  descending (x :: l) ->
  forall y, In y l -> LocalBlockHeader.sequence y < LocalBlockHeader.sequence x.
Proof.
  revert x; induction l as [|p l IH]; intros x Hd y Hy; [contradiction|].
  destruct Hd as [[_ Hs] Hd]. destruct Hy as [<-|Hy]; [lia|].
  specialize (IH p Hd y Hy). lia.
Qed.

Lemma ascending_above p l :
  ascending (p :: l) ->
  forall y, In y l -> LocalBlockHeader.sequence p < LocalBlockHeader.sequence y.
Proof.
  revert p; induction l as [|x l IH]; intros p Ha y Hy; [contradiction|].
  destruct Ha as [[_ Hs] Ha]. destruct Hy as [<-|Hy]; [lia|].
  specialize (IH x Ha y Hy). lia.
Qed.

Lemma occurrences_absent H l :
  (forall y, In y l -> y <> H) -> occurrences H l = 0.
Proof.
  induction l as [|x l IH]; intros Hn; simpl; [reflexivity|].
  rewrite IH by (intros y Hy; apply Hn; now right).
  destruct (LocalBlockHeader.eqb x H) eqn:E; [|reflexivity].
  apply Header_eqb_eq in E. exfalso. apply (Hn x); [now left | exact E].
Qed.

Lemma occurrences_descending H l : descending l -> 0 <= occurrences H l <= 1.
Proof.
  induction l as [|x l IH]; intros Hd; simpl; [lia|].
  specialize (IH (descending_tail _ _ Hd)).
  destruct (LocalBlockHeader.eqb x H) eqn:E; [|lia].
  apply Header_eqb_eq in E. subst x.
  rewrite occurrences_absent; [lia|].
  intros y Hy ->. pose proof (descending_below _ _ Hd _ Hy). lia.
Qed.

Lemma last_default (x d d' : Header) l : last (x :: l) d = last (x :: l) d'.
Proof.
  revert x; induction l as [|y l IH]; intros x; [reflexivity|].
  change (last (y :: l) d = last (y :: l) d'). apply IH.
Qed.

Lemma last_in (x d : Header) l : In (last (x :: l) d) (x :: l).
Proof.
  revert x; induction l as [|y l IH]; intros x; [now left|].
  right. change (In (last (y :: l) d) (y :: l)). apply IH.
Qed.

Section Ledger.

Variable known : Header -> Prop.
Variable g : Header.
Variable I : Env -> Prop.
Variable c : ChainRef.
Hypothesis U : universe known g.

Lemma run_handlers_polite hs h :
  Forall (polite I c) hs ->
  forall e, I e ->
  exists e', run_handlers hs h e = (Normal tt, e') /\ I e' /\ chains e' c = chains e c.
Proof.
  induction 1 as [|hd hs Hhd _ IH]; intros e He; simpl.
  - exists e. auto.
  - destruct (Hhd h e He) as (e1 & -> & I1 & C1).
    destruct (IH e1 I1) as (e2 & -> & I2 & C2).
    exists e2. split; [reflexivity|]. split; [exact I2 | congruence].
Qed.

Lemma civil_noted st l : civil_state I c st -> civil_state I c (noted st l).
Proof. intros H; exact H. Qed.

Lemma civil_moved st cu e l : civil_state I c st -> I e -> civil_state I c (moved st cu e l).
Proof. intros (H1 & _ & H3) He. split; [exact H1|]. split; [exact He | exact H3]. Qed.

Lemma tracks_noted st x rp l :
  events l = [] -> tracks known g st x rp -> tracks known g (noted st l) x rp.
Proof.
  intros El (H1 & H2 & H3 & H4). unfold tracks. simpl.
  rewrite events_app, El, app_nil_r. auto.
Qed.

Lemma sound_noted st l : events l = [] -> sound known g I c st -> sound known g I c (noted st l).
Proof.
  intros El [Hc (x & rp & Ht)]. split; [now apply civil_noted|].
  exists x, rp. now apply tracks_noted.
Qed.

Lemma sound_cancelled old st : sound known g I c st -> sound known g I c (snd (cancelled old st)).
Proof. intros H. rewrite cancelled_state. now apply sound_noted. Qed.

Lemma cancelled_returns old st : fst (cancelled old st) <> Normal None.
Proof.
  unfold cancelled. destruct (hashChangedSince _ _) as [[r|err] st']; discriminate.
Qed.

Lemma cancelled_env old st : env (snd (cancelled old st)) = env st.
Proof. rewrite cancelled_state. reflexivity. Qed.

(** After Remove(x) the events track the path of the parent. *)
Lemma tracks_removed st x y rp e :
  tracks known g st x (y :: rp) ->
  tracks known g
    (moved st (after_remove x) e [SignalChecked false; Emitted (Remove x)]) y rp.
Proof.
  intros (H1 & (Hd & Hl & Hk) & Hb & Hn).
  assert (Hnet : forall H, net H (events (actions st) ++ [Remove x]) = occurrences H (y :: rp)).
  { intros H. rewrite net_app, Hn. simpl.
    destruct (LocalBlockHeader.eqb x H); lia. }
  split; [|split; [|split]].
  - simpl. f_equal. apply Hd.
  - split; [exact (descending_tail _ _ Hd)|]. split; [exact Hl|].
    now inversion Hk.
  - simpl. rewrite events_app. simpl. apply balanced_snoc; [exact Hb|].
    intros H. rewrite Hnet. apply occurrences_descending.
    exact (descending_tail _ _ Hd).
  - intros H. simpl. rewrite events_app. simpl. apply Hnet.
Qed.

(** After Add(y), for a child [y] of the header of the cursor, the events
    track the path of [y]. *)
Lemma tracks_added st p y rp e :
  tracks known g st p rp -> child_of y p -> known y ->
  tracks known g
    (moved st (after_add y) e [SignalChecked false; Emitted (Add y)]) y (p :: rp).
Proof.
  intros (H1 & (Hd & Hl & Hk) & Hb & Hn) Hy Ky.
  assert (Hd' : descending (y :: p :: rp)) by (split; assumption).
  assert (Hnet : forall H, net H (events (actions st) ++ [Add y]) = occurrences H (y :: p :: rp)).
  { intros H. rewrite net_app, Hn. simpl.
    destruct (LocalBlockHeader.eqb y H); lia. }
  split; [|split; [|split]].
  - reflexivity.
  - split; [exact Hd'|]. split; [exact Hl | now constructor].
  - simpl. rewrite events_app. simpl. apply balanced_snoc; [exact Hb|].
    intros H. rewrite Hnet. now apply occurrences_descending.
  - intros H. simpl. rewrite events_app. simpl. apply Hnet.
Qed.

Lemma unwind_ledger signal old fork : forall iter st x rp,
  civil_state I c st -> tracks known g st x rp ->
  descending (x :: iter) -> Forall known iter -> last (x :: iter) x = fork ->
  civil_state I c (snd (unwind signal old fork (x :: iter) st))
  /\ chains (env (snd (unwind signal old fork (x :: iter) st))) c = chains (env st) c
  /\ exists x' rp',
       tracks known g (snd (unwind signal old fork (x :: iter) st)) x' rp'
       /\ (fst (unwind signal old fork (x :: iter) st) = Normal None -> x' = fork).
Proof.
  induction iter as [|y iter IH]; intros st x rp Hc Ht Hd Hk Hl;
    destruct (signal_aborted signal (env st)) eqn:Hs;
    try (rewrite unwind_turn_aborted by exact Hs;
         split; [rewrite cancelled_state; now apply civil_noted|];
         split; [now rewrite cancelled_env|];
         exists x, rp; split;
           [rewrite cancelled_state; now apply tracks_noted
           | intros E; now apply cancelled_returns in E]).
  - (* the last header of the iterator: the fork *)
    rewrite unwind_turn by exact Hs. simpl in Hl. subst fork.
    unfold not_fork. rewrite Buffer_equals_refl. simpl.
    split; [now apply civil_noted|]. split; [reflexivity|].
    exists x, rp. split; [now apply tracks_noted | reflexivity].
  - rewrite unwind_turn by exact Hs.
    assert (Kx : known x) by (destruct Ht as (_ & (_ & _ & K) & _); now inversion K).
    assert (Kf : known fork).
    { pose proof (last_in x x (y :: iter)) as Hin. rewrite Hl in Hin.
      destruct Hin as [<-|Hin]; [exact Kx|].
      rewrite Forall_forall in Hk. now apply Hk. }
    destruct (not_fork fork x) eqn:Hnf.
    + (* a header of the old branch *)
      destruct Hc as (Hch & He & Hh).
      assert (Hr : Forall (polite I c) (onRemove (self st))).
      { unfold handlers in Hh. now apply Forall_app in Hh as [_ Hh]. }
      destruct (run_handlers_polite _ x Hr _ He) as (e & -> & Ie & Ce).
      destruct Hd as [Hxy Hd].
      assert (Ky : known y) by now inversion Hk.
      destruct rp as [|p rp].
      { exfalso. destruct Ht as (_ & (_ & Hg & _) & _). simpl in Hg. subst x.
        pose proof (universe_floor _ _ U y Ky). destruct Hxy as [_ Hxy]. lia. }
      assert (p = y).
      { destruct Ht as (_ & ([[Hp _] _] & _ & K) & _).
        apply (universe_hash _ _ U); [now inversion K; inversion H2 | exact Ky|].
        destruct Hxy as [Hxy _]. congruence. }
      subst p.
      specialize (IH (moved st (after_remove x) e [SignalChecked false; Emitted (Remove x)])
                    y rp).
      destruct IH as (C1 & C2 & x' & rp' & T1 & T2).
      * apply civil_moved; [repeat split; assumption | exact Ie].
      * now apply tracks_removed.
      * exact Hd.
      * now inversion Hk.
      * rewrite <- Hl. change (last (x :: y :: iter) x) with (last (y :: iter) x).
        apply last_default.
      * split; [exact C1|]. split; [rewrite C2; exact Ce|].
        exists x', rp'. split; assumption.
    + (* the fork can only come last *)
      exfalso. unfold not_fork in Hnf. apply negb_false_iff, Buffer_equals_eq in Hnf.
      apply (universe_hash _ _ U) in Hnf; [|exact Kx | exact Kf].
      rewrite <- Hnf in Hl.
      pose proof (last_in y x iter) as Hin.
      change (last (y :: iter) x) with (last (x :: y :: iter) x) in Hin. rewrite Hl in Hin.
      pose proof (descending_below _ _ Hd x Hin). lia.
Qed.

Lemma rewind_ledger signal old fork : forall iter st p rp,
  civil_state I c st -> tracks known g st p rp ->
  ascending (p :: iter) -> Forall known iter ->
  (forall y, In y iter -> not_fork fork y = true) ->
  sound known g I c (snd (rewind signal old fork iter st)).
Proof.
  induction iter as [|y iter IH]; intros st p rp Hc Ht Ha Hk Hnf.
  - split; [exact Hc | exists p, rp; exact Ht].
  - destruct (signal_aborted signal (env st)) eqn:Hs.
    + rewrite rewind_turn_aborted by exact Hs. apply sound_cancelled.
      split; [exact Hc | exists p, rp; exact Ht].
    + rewrite rewind_turn by exact Hs. rewrite (Hnf y) by now left.
      destruct Hc as (Hch & He & Hh).
      assert (Hr : Forall (polite I c) (onAdd (self st))).
      { unfold handlers in Hh. now apply Forall_app in Hh as [Hh _]. }
      destruct (run_handlers_polite _ y Hr _ He) as (e & -> & Ie & Ce).
      destruct Ha as [Hyp Ha].
      apply (IH _ y (p :: rp)).
      * apply civil_moved; [repeat split; assumption | exact Ie].
      * apply tracks_added; [exact Ht | exact Hyp | now inversion Hk].
      * exact Ha.
      * now inversion Hk.
      * intros z Hz. apply Hnf. now right.
Qed.


(** The forward iterator from the fork: the fork is skipped, and what
    follows are descendants that extend the path of the cursor. *)
Lemma rewind_from_fork signal old fork target iter st x rp :
  civil_state I c st -> tracks known g st x rp ->
  walk_up iter fork target -> Forall known iter ->
  (x = fork \/ fork = target) ->
  sound known g I c (snd (rewind signal old fork iter st)).
Proof.
  intros Hc Ht (Hh & Hl & Ha) Hk Hx.
  destruct iter as [|f iter]; [discriminate|]. injection Hh as Ef. subst f.
  assert (Kf : known fork) by now inversion Hk.
  assert (Hs0 : sound known g I c st) by (split; [exact Hc | exists x, rp; exact Ht]).
  destruct (signal_aborted signal (env st)) eqn:Hs.
  { rewrite rewind_turn_aborted by exact Hs. now apply sound_cancelled. }
  rewrite rewind_turn by exact Hs.
  unfold not_fork at 1. rewrite Buffer_equals_refl. simpl.
  destruct iter as [|y iter].
  { simpl. now apply sound_noted. }
  destruct Hx as [->|Et].
  - apply rewind_ledger with (p := fork) (rp := rp).
    + now apply civil_noted.
    + now apply tracks_noted.
    + exact Ha.
    + now inversion Hk.
    + intros z Hz. unfold not_fork. apply negb_true_iff, Buffer_equals_neq.
      intros E. apply (universe_hash _ _ U) in E; [|idtac|exact Kf].
      * pose proof (ascending_above _ _ Ha z Hz). subst z. lia.
      * inversion Hk as [|? ? _ Hk']. rewrite Forall_forall in Hk'. now apply Hk'.
  - exfalso. rewrite <- Et in Hl. pose proof (last_in y fork iter) as Hin.
    change (last (y :: iter) fork) with (last (fork :: y :: iter) fork) in Hin.
    rewrite Hl in Hin. pose proof (ascending_above _ _ Ha _ Hin). lia.
Qed.

Lemma sound_returned old (out : Completion (option UpdateResult) * State) :
  sound known g I c (snd out) ->
  sound known g I c
    (snd (match out with
          | (Normal (Some r), st2) => (Normal r, st2)
          | (Normal None, st2) => hashChangedSince old st2
          | (Throw err, st2) => (Throw err, st2)
          end)).
Proof.
  destruct out as [[[r|]|err] st2]; simpl; try (intros H; exact H).
  rewrite hashChangedSince_state. intros H; exact H.
Qed.

Lemma reconcile_ledger signal old st :
  honours known g (this_chain st) ->
  sound known g I c st -> sound known g I c (snd (reconcile signal old st)).
Proof.
  intros HS [Hc (x & rp & Ht)].
  assert (Hs0 : sound known g I c st) by (split; [exact Hc | exists x, rp; exact Ht]).
  pose proof Ht as (Hh & (_ & _ & Kp) & _).
  assert (Kx : known x) by now inversion Kp.
  destruct (Buffer.equals (LocalBlockHeader.hash (Blockchain.head (this_chain st)))
              (LocalBlockHeader.hash x)) eqn:E.
  { rewrite (reconcile_same _ _ _ _ Hh E). exact Hs0. }
  destruct (Blockchain.getHeader (this_chain st) (LocalBlockHeader.hash x)) as [cur|] eqn:G.
  2:{ rewrite (reconcile_missing _ _ _ _ Hh E G). exact Hs0. }
  destruct (honours_getHeader _ _ _ HS _ _ G) as [Kc Hcur].
  apply (universe_hash _ _ U) in Hcur; [|exact Kc | exact Kx]. subst cur.
  destruct (Blockchain.findFork (this_chain st) x (Blockchain.head (this_chain st)))
    as [[fork|] lin] eqn:F.
  2:{ rewrite (reconcile_disjoint _ _ _ _ _ _ Hh E G F). exact Hs0. }
  pose proof (honours_head _ _ _ HS) as Kt.
  destruct (honours_iterateFrom _ _ _ HS _ _ _ _ G F) as [Wd Kd].
  destruct (honours_iterateTo _ _ _ HS _ _ _ _ G F) as [Wu Ku].
  rewrite (reconcile_fork _ _ _ _ _ _ _ Hh E G F).
  destruct lin; simpl.
  - (* the cursor and the head are on one branch *)
    pose proof (honours_linear _ _ _ HS _ _ _ G F) as Hlin.
    apply sound_returned.
    apply rewind_from_fork with (target := Blockchain.head (this_chain st)) (x := x) (rp := rp);
      try assumption.
    destruct Hlin as [->| ->]; auto.
  - (* a reorganization *)
    destruct Wd as (Hhd & Hl & Hd).
    destruct (Blockchain.iterateFrom (this_chain st) x fork) as [|x0 iter] eqn:Eit;
      [discriminate|].
    injection Hhd as ->.
    destruct (unwind_ledger signal old fork iter st x rp Hc Ht Hd
                ltac:(now inversion Kd) Hl) as (C1 & C2 & x' & rp' & T1 & T2).
    destruct (unwind signal old fork (x :: iter) st) as [[[r|]|err] st1] eqn:E1;
      simpl in *; try (split; [exact C1 | exists x', rp'; exact T1]).
    specialize (T2 eq_refl). subst x'.
    apply sound_returned.
    assert (Hst1 : this_chain st1 = this_chain st).
    { unfold this_chain. destruct C1 as (-> & _). destruct Hc as (-> & _). exact C2. }
    rewrite Hst1.
    apply rewind_from_fork with (target := Blockchain.head (this_chain st)) (x := fork) (rp := rp');
      auto.
Qed.

Lemma tracks_genesis st e :
  hash (self st) = None -> events (actions st) = [] ->
  tracks known g (moved st (after_add g) e [Emitted (Add g)]) g [].
Proof.
  intros Hn He.
  assert (Hnet : forall H, net H ([] ++ [Add g]) = occurrences H [g]) by reflexivity.
  split; [reflexivity|]. split; [|split].
  - split; [exact Logic.I|]. split; [reflexivity|].
    constructor; [exact (universe_genesis _ _ U) | constructor].
  - simpl. rewrite events_app, He. apply balanced_snoc; [apply balanced_nil|].
    intros H. rewrite Hnet. now apply occurrences_descending.
  - intros H. simpl. rewrite events_app, He. apply Hnet.
Qed.

Hypothesis stores : forall e, I e -> honours known g (chains e c).

Lemma update_ledger signal st :
  civil_state I c st -> ledger known g st ->
  civil_state I c (snd (update signal st)) /\ ledger known g (snd (update signal st)).
Proof.
  intros Hc [[Hn He]|(x & rp & Ht)].
  - rewrite (update_unseeded _ _ Hn). cbv zeta.
    pose proof Hc as (Hch & Ie & Hh).
    assert (Ha : Forall (polite I c) (onAdd (self st))).
    { unfold handlers in Hh. now apply Forall_app in Hh as [Hh _]. }
    assert (Hg0 : Blockchain.genesis (this_chain st) = g).
    { unfold this_chain. rewrite Hch. apply honours_genesis with (known := known).
      now apply stores. }
    rewrite Hg0.
    destruct (run_handlers_polite _ g Ha _ Ie) as (e & -> & Ie' & Ce).
    rewrite Hch, (honours_genesis _ _ _ (stores _ Ie')).
    match goal with |- context [reconcile ?s ?o ?x] =>
      destruct (reconcile_ledger s o x) as [C1 T1] end.
    + unfold this_chain. simpl. rewrite Hch. now apply stores.
    + split; [now apply civil_moved|]. exists g, []. now apply tracks_genesis.
    + split; [exact C1 | right; exact T1].
  - pose proof Ht as (Hh & _). rewrite (update_seeded _ _ _ Hh).
    destruct (reconcile_ledger signal (Some (LocalBlockHeader.hash x)) st) as [C1 T1].
    + unfold this_chain. destruct Hc as (-> & Ie & _). now apply stores.
    + split; [exact Hc | exists x, rp; exact Ht].
    + split; [exact C1 | right; exact T1].
Qed.

Lemma run_ledger ops : forall st,
  Forall (civil I c) ops ->
  civil_state I c st -> ledger known g st ->
  ledger known g (run ops st).
Proof.
  induction ops as [|o ops IH]; intros st Ho Hc Hl; simpl; [exact Hl|].
  inversion Ho as [|? ? Hciv Hrest]; subst.
  destruct o as [hd|hd|f|signal]; simpl in *.
  - apply IH; [exact Hrest| |exact Hl].
    destruct Hc as (H1 & H2 & H3). split; [exact H1|]. split; [exact H2|].
    unfold handlers in *. simpl. unfold Event_on.
    apply Forall_app in H3 as [Ha Hr].
    repeat (apply Forall_app; split); auto.
  - apply IH; [exact Hrest| |exact Hl].
    destruct Hc as (H1 & H2 & H3). split; [exact H1|]. split; [exact H2|].
    unfold handlers in *. simpl. unfold Event_on.
    apply Forall_app in H3 as [Ha Hr].
    repeat (apply Forall_app; split); auto.
  - apply IH; [exact Hrest| |exact Hl].
    destruct Hc as (H1 & H2 & H3). split; [exact H1|]. split; [now apply Hciv | exact H3].
  - destruct (update_ledger signal st Hc Hl) as [C1 L1]. now apply IH.
Qed.

End Ledger.

(** C3, as the code has it.  A processor that was constructed without a
    head, following a store that honours its interface, with subscribers
    that acknowledge every event and leave the store alone while they are
    called: whatever the subscriptions, the mutations of the store between
    the calls and the calls of [update], cancelled or not, at every point of
    the stream of events the number of Add(H) minus the number of Remove(H)
    is 0 or 1, for every header H. *)
Theorem balanced_edit_script (known : Header -> Prop) (g : Header) (I : Env -> Prop)
    (c : ChainRef) opt_logger e ops :
  universe known g ->
  I e ->
  (forall e, I e -> honours known g (chains e c)) ->
  Forall (civil I c) ops ->
  balanced (events (actions (run ops (fresh opt_logger c None e)))).
Proof.
  intros U Ie HS Hops.
  destruct (run_ledger known g I c U HS ops (fresh opt_logger c None e) Hops)
    as [[_ ->]|(x & rp & _ & _ & Hb & _)].
  - split; [reflexivity|]. split; [exact Ie | constructor].
  - left. split; reflexivity.
  - apply balanced_nil.
  - exact Hb.
Qed.

(** The two stores of scenario 3 honour the interface. *)

Ltac each_small K := destruct K as [<-|[<-|[<-|[]]]].

Ltac known_small :=
  repeat (apply Forall_cons; [unfold Scenario.small; simpl; tauto|]); apply Forall_nil.

Lemma small_universe : universe Scenario.small Scenario.G.
Proof.
  split.
  - now left.
  - intros a b Ka Kb E. each_small Ka; each_small Kb;
      first [reflexivity | discriminate E].
  - intros x Kx. each_small Kx; vm_compute; discriminate.
Qed.

Lemma getHeader_found mc h x :
  MemChain.getHeader mc h = Some x ->
  In x (MemChain.headers mc) /\ LocalBlockHeader.hash x = h.
Proof.
  intros Hx. apply find_some in Hx as [Hin Heq].
  split; [exact Hin | now apply Buffer_equals_eq].
Qed.

(** The three members that depend on the fork, one header of the store
    after the other. *)
Ltac each_header Ka :=
  simpl in Ka; repeat (destruct Ka as [<-|Ka]); try contradiction.

Ltac honours_by_cases :=
  split;
  [ reflexivity
  | unfold Scenario.small; simpl; tauto
  | let h := fresh "h" in let x := fresh "x" in let Hx := fresh "Hx" in
    intros h x Hx; apply getHeader_found in Hx as [Hx ?];
    split; [unfold Scenario.small; simpl in *; tauto | assumption]
  | let h := fresh "h" in let a := fresh "a" in let f := fresh "f" in
    let Ka := fresh "Ka" in let F := fresh "F" in
    intros h a f Ka F; apply getHeader_found in Ka as [Ka _];
    each_header Ka; vm_compute in F;
    first [discriminate F | injection F as <-; first [now left | now right]]
  | let h := fresh "h" in let a := fresh "a" in let f := fresh "f" in
    let lin := fresh "lin" in let Ka := fresh "Ka" in let F := fresh "F" in
    intros h a f lin Ka F; apply getHeader_found in Ka as [Ka _];
    each_header Ka; vm_compute in F; injection F as <- <-;
    (split; [vm_compute; repeat split | known_small])
  | let h := fresh "h" in let a := fresh "a" in let f := fresh "f" in
    let lin := fresh "lin" in let Ka := fresh "Ka" in let F := fresh "F" in
    intros h a f lin Ka F; apply getHeader_found in Ka as [Ka _];
    each_header Ka; vm_compute in F; injection F as <- <-;
    (split; [vm_compute; repeat split | known_small]) ].

(** The store that follows the canonical chain honours the interface in
    both states, and so does the store that walks back from the stop. *)
Lemma main_A1_honours : honours Scenario.small Scenario.G Scenario.main_A1.
Proof. honours_by_cases. Qed.

Lemma main_B1_honours : honours Scenario.small Scenario.G Scenario.main_B1.
Proof. honours_by_cases. Qed.

Lemma on_A1_honours : honours Scenario.small Scenario.G Scenario.on_A1.
Proof. honours_by_cases. Qed.

Lemma on_B1_honours : honours Scenario.small Scenario.G Scenario.on_B1.
Proof. honours_by_cases. Qed.

Lemma quiet_polite : polite Scenario.reorganizing 0%nat Scenario.quiet.
Proof. intros h e He. exists e. auto. Qed.

Lemma balanced_edit_script_witness :
  balanced (events (actions (run Scenario.session
    (fresh None 0%nat None (Scenario.env_of Scenario.main_A1 false))))).
Proof.
  apply (balanced_edit_script Scenario.small Scenario.G Scenario.reorganizing).
  - exact small_universe.
  - left. reflexivity.
  - intros e [->| ->]; [exact main_A1_honours | exact main_B1_honours].
  - repeat (apply Forall_cons; [|]); try apply Forall_nil; simpl; try exact Logic.I.
    + exact quiet_polite.
    + exact quiet_polite.
    + intros e _. right. reflexivity.
Defined.

(** C3, as the specification states it, fails for a processor that was constructed with
    the hash of [A3] as its head: the first event of the reorganization is
    Remove(A3), which no Add(A3) precedes. *)
Lemma constructed_with_head_goes_negative :
  ~ balanced (events (actions (run [Call None]
      (fresh None 0%nat (Some (LocalBlockHeader.hash Scenario.A3))
         (Scenario.env_of Scenario.reorged false))))).
Proof.
  intros H. specialize (H 1%nat Scenario.A3). vm_compute in H.
  destruct H as [H _]. apply H. reflexivity.
Qed.

(** * Further properties of [update] *)

(** ** What a loop has got through *)

Lemma run_handlers_rejects hs h : forall e err e',
  run_handlers hs h e = (Throw err, e') -> err = HandlerRejected.
Proof.
  induction hs as [|hd hs IH]; intros e err e' H; simpl in H; [discriminate|].
  destruct (hd h e) as [e1|]; [exact (IH _ _ _ H)|]. now injection H as <- _.
Qed.

Lemma hashChangedSince_seeded old st :
  hash (self st) <> None ->
  hashChangedSince old st = (Normal (mkResult (moved_since old st)), st).
Proof.
  intros H. unfold hashChangedSince, moved_since.
  destruct old as [o|]; [|reflexivity].
  unfold bind, gets; simpl. destruct (hash (self st)); [reflexivity | contradiction].
Qed.

Lemma cancelled_seeded old st :
  hash (self st) <> None ->
  cancelled old st
  = (Normal (Some (mkResult (moved_since old st))), noted st [SignalChecked true]).
Proof.
  intros H. unfold cancelled.
  rewrite hashChangedSince_seeded by exact H. reflexivity.
Qed.

Lemma removelast_cons {A} (x : A) l : l <> [] -> removelast (x :: l) = x :: removelast l.
Proof. destruct l; [contradiction | reflexivity]. Qed.

Lemma events_noted st l : events (actions (noted st l)) = events (actions st) ++ events l.
Proof. apply events_app. Qed.

Lemma cursor_moved st c e l : cursor (moved st c e l) = c.
Proof. destruct c; reflexivity. Qed.

(** One more header in front of what the rest of the loop gets through. *)
Lemma loop_outcome_emitted kind old fork x iter st e out :
  not_fork fork x = true ->
  loop_outcome kind old fork iter
    (moved st (cursor_of (kind x)) e [SignalChecked false; Emitted (kind x)]) out ->
  loop_outcome kind old fork (x :: iter) st out.
Proof.
  intros Hx (done & rest & Hsplit & Hev & Hh & Hout).
  rewrite cursor_moved in Hout.
  exists (x :: done), rest. split; [|split; [|split]].
  - unfold others in *. simpl. rewrite Hx, Hsplit. reflexivity.
  - rewrite Hev. simpl. rewrite events_app. simpl. rewrite <- app_assoc. reflexivity.
  - exact Hh.
  - destruct (fst out) as [[r|]|err]; cbv beta iota in *.
    + exact Hout.
    + exact Hout.
    + destruct Hout as (He & Hd & Hc). split; [exact He|]. split; [discriminate|].
      rewrite removelast_cons by exact Hd. exact Hc.
Qed.

Lemma loop_outcome_skipped kind old fork x iter st out :
  not_fork fork x = false ->
  loop_outcome kind old fork iter (noted st [SignalChecked false]) out ->
  loop_outcome kind old fork (x :: iter) st out.
Proof.
  intros Hx (done & rest & Hsplit & Hev & Hh & Hout).
  exists done, rest. split; [|split; [|split]].
  - unfold others in *. simpl. rewrite Hx. exact Hsplit.
  - rewrite Hev, events_noted. simpl. rewrite app_nil_r. reflexivity.
  - exact Hh.
  - exact Hout.
Qed.

Lemma loop_outcome_rejected kind old fork x iter st e :
  not_fork fork x = true -> hash (self st) <> None ->
  loop_outcome kind old fork (x :: iter) st
    (Throw HandlerRejected, disturbed st e [SignalChecked false; Emitted (kind x)]).
Proof.
  intros Hx Hh. exists [x], (others fork iter). split; [|split; [|split]].
  - unfold others. simpl. rewrite Hx. reflexivity.
  - simpl. rewrite events_app. reflexivity.
  - exact Hh.
  - simpl. split; [reflexivity|]. split; [discriminate | reflexivity].
Qed.

Lemma loop_outcome_cancelled kind old fork iter st :
  hash (self st) <> None ->
  loop_outcome kind old fork iter st (cancelled old st).
Proof.
  intros Hh. rewrite cancelled_seeded by exact Hh.
  exists [], (others fork iter). split; [reflexivity|]. split; [|split].
  - simpl. rewrite events_app, app_nil_r. simpl. rewrite app_nil_r. reflexivity.
  - exact Hh.
  - simpl. split; reflexivity.
Qed.

Lemma unwind_outcome signal old fork : forall iter st,
  hash (self st) <> None ->
  loop_outcome Remove old fork iter st (unwind signal old fork iter st).
Proof.
  induction iter as [|x iter IH]; intros st Hh.
  - exists [], []. simpl. rewrite app_nil_r. auto.
  - destruct (signal_aborted signal (env st)) eqn:Hs.
    + rewrite unwind_turn_aborted by exact Hs. now apply loop_outcome_cancelled.
    + rewrite unwind_turn by exact Hs. destruct (not_fork fork x) eqn:Hx.
      * destruct (run_handlers _ _ _) as [[[]|err] e] eqn:Hr.
        -- apply (loop_outcome_emitted Remove _ _ _ _ _ e); [exact Hx|].
           apply IH. discriminate.
        -- rewrite (run_handlers_rejects _ _ _ _ _ Hr).
           now apply loop_outcome_rejected.
      * apply loop_outcome_skipped; [exact Hx|]. now apply IH.
Qed.

Lemma rewind_outcome signal old fork : forall iter st,
  hash (self st) <> None ->
  loop_outcome Add old fork iter st (rewind signal old fork iter st).
Proof.
  induction iter as [|x iter IH]; intros st Hh.
  - exists [], []. simpl. rewrite app_nil_r. auto.
  - destruct (signal_aborted signal (env st)) eqn:Hs.
    + rewrite rewind_turn_aborted by exact Hs. now apply loop_outcome_cancelled.
    + rewrite rewind_turn by exact Hs. destruct (not_fork fork x) eqn:Hx.
      * destruct (run_handlers _ _ _) as [[[]|err] e] eqn:Hr.
        -- apply (loop_outcome_emitted Add _ _ _ _ _ e); [exact Hx|].
           apply IH. discriminate.
        -- rewrite (run_handlers_rejects _ _ _ _ _ Hr).
           now apply loop_outcome_rejected.
      * apply loop_outcome_skipped; [exact Hx|]. now apply IH.
Qed.

(** ** What a pass has got through *)

Lemma unwind_stays_settled I signal old fork iter st :
  settled I st -> settled I (snd (unwind signal old fork iter st)).
Proof.
  apply (steps_unwind (stays_settled I)).
  - apply stays_settled_record.
  - apply stays_settled_emit.
  - apply stays_settled_assign.
Qed.

Lemma unwind_same_frame signal old fork iter st :
  same_frame st (snd (unwind signal old fork iter st)).
Proof.
  apply steps_unwind; try exact same_frame_pre.
  - intros a st'; repeat split.
  - intros h; split; intros st'; unfold bind, gets, emitAsync; simpl;
      destruct (run_handlers _ _ _); repeat split.
  - intros h s st'; repeat split.
Qed.

Lemma map_removelast {A B} (f : A -> B) l : removelast (map f l) = map f (removelast l).
Proof.
  induction l as [|x l IH]; [reflexivity|].
  destruct l as [|y l]; [reflexivity|].
  change (f x :: removelast (map f (y :: l)) = f x :: map f (removelast (y :: l))).
  now rewrite IH.
Qed.

Lemma acknowledged_app a b c0 :
  acknowledged (a ++ b) c0 = acknowledged b (acknowledged a c0).
Proof. apply fold_left_app. Qed.

Lemma map_not_nil {A B} (f : A -> B) l : l <> [] -> map f l <> [].
Proof. destruct l; [contradiction | discriminate]. Qed.

(** The additions, from a state [st1] that the removals [removed] have
    led to. *)
Lemma pass_outcome_rewind signal old st cur fork (lin : bool) st1
    (removed : list Header) :
  (if lin then [] else others fork (Blockchain.iterateFrom (this_chain st) cur fork))
    = removed ->
  events (actions st1) = events (actions st) ++ map Remove removed ->
  cursor st1 = acknowledged (map Remove removed) (cursor st) ->
  hash (self st1) <> None ->
  chain (self st1) = chain (self st) ->
  (forall I, settled I st -> settled I st1) ->
  pass_outcome old st cur fork lin
    (match rewind signal old fork
             (Blockchain.iterateTo (this_chain st1) fork (Blockchain.head (this_chain st)))
             st1 with
     | (Normal (Some r), st2) => (Normal r, st2)
     | (Normal None, st2) => hashChangedSince old st2
     | (Throw err, st2) => (Throw err, st2)
     end).
Proof.
  intros Hrem Hev Hcu Hh Hch Hset.
  destruct (rewind_outcome signal old fork
              (Blockchain.iterateTo (this_chain st1) fork (Blockchain.head (this_chain st)))
              st1 Hh) as (added & rest & Hsplit & Hev2 & Hh2 & Hout).
  exists removed, added, (env st1).
  split; [exists []; rewrite app_nil_r; auto|].
  split; [exists rest; unfold this_chain in Hsplit; rewrite Hch in Hsplit; exact Hsplit|].
  split; [intros I HI; apply (Hset I HI)|].
  destruct (rewind _ _ _ _ _) as [[[r|]|err] st2]; cbv beta iota in *;
    cbn [fst snd] in *.
  - split; [rewrite Hev2, Hev, <- app_assoc; reflexivity|]. split; [exact Hh2|].
    destruct Hout as [Hc ->]. split; [|reflexivity].
    rewrite acknowledged_app, <- Hcu. exact Hc.
  - rewrite hashChangedSince_seeded by exact Hh2. cbn [fst snd].
    split; [rewrite Hev2, Hev, <- app_assoc; reflexivity|]. split; [exact Hh2|].
    destruct Hout as [_ Hc]. split; [|reflexivity].
    rewrite acknowledged_app, <- Hcu. exact Hc.
  - split; [rewrite Hev2, Hev, <- app_assoc; reflexivity|]. split; [exact Hh2|].
    destruct Hout as (-> & Hd & Hc). split; [reflexivity|].
    split; [intros E; apply app_eq_nil in E as [_ E]; now apply (map_not_nil Add) in E|].
    rewrite removelast_app by now apply map_not_nil.
    rewrite acknowledged_app, map_removelast, <- Hcu. exact Hc.
Qed.

Lemma reconcile_outcome signal old st h cur fork lin :
  hash (self st) = Some h ->
  Buffer.equals (LocalBlockHeader.hash (Blockchain.head (this_chain st))) h = false ->
  Blockchain.getHeader (this_chain st) h = Some cur ->
  Blockchain.findFork (this_chain st) cur (Blockchain.head (this_chain st))
    = (Some fork, lin) ->
  pass_outcome old st cur fork lin (reconcile signal old st).
Proof.
  intros H E G F. rewrite (reconcile_fork _ _ _ _ _ _ _ H E G F).
  assert (Hh : hash (self st) <> None) by congruence.
  destruct lin; cbn [negb].
  - apply pass_outcome_rewind with (removed := []); auto.
    simpl. now rewrite app_nil_r.
  - destruct (unwind_outcome signal old fork
                (Blockchain.iterateFrom (this_chain st) cur fork) st Hh)
      as (removed & rest & Hsplit & Hev & Hh1 & Hout).
    pose proof (unwind_same_frame signal old fork
                  (Blockchain.iterateFrom (this_chain st) cur fork) st) as (Hch & _).
    pose proof (fun I : Env -> Prop => unwind_stays_settled I signal old fork
                  (Blockchain.iterateFrom (this_chain st) cur fork) st) as Hset.
    destruct (unwind _ _ _ _ _) as [[[r|]|err] st1]; cbv beta iota in *;
      cbn [fst snd] in *.
    + exists removed, [], (env st).
      split; [exists rest; split; [exact Hsplit | intros C; now contradiction C]|].
      split; [eexists; reflexivity|].
      split; [intros I HI; apply HI|].
      simpl. rewrite app_nil_r. split; [exact Hev|]. split; [exact Hh1 | exact Hout].
    + destruct Hout as [-> Hc].
      apply pass_outcome_rewind with (removed := removed); auto.
      now rewrite app_nil_r in Hsplit.
    + exists removed, [], (env st).
      split; [exists rest; split; [exact Hsplit | intros C; now contradiction C]|].
      split; [eexists; reflexivity|].
      split; [intros I HI; apply HI|].
      simpl. rewrite !app_nil_r. split; [exact Hev|]. split; [exact Hh1|].
      destruct Hout as (-> & Hd & Hc). split; [reflexivity|].
      split; [now apply map_not_nil|]. rewrite map_removelast. exact Hc.
Qed.

(** ** The two ways in which [update] fails *)

Lemma reconcile_throws signal old st h err :
  hash (self st) = Some h ->
  fst (reconcile signal old st) = Throw err ->
  (err = HandlerRejected
   /\ exists done, done <> []
        /\ events (actions (snd (reconcile signal old st))) = events (actions st) ++ done)
  \/ (err = AssertionError (head_not_found h)
      /\ Blockchain.getHeader (this_chain st) h = None
      /\ snd (reconcile signal old st) = st).
Proof.
  intros H.
  destruct (Buffer.equals (LocalBlockHeader.hash (Blockchain.head (this_chain st))) h) eqn:E.
  { rewrite (reconcile_same _ _ _ _ H E). discriminate. }
  destruct (Blockchain.getHeader (this_chain st) h) as [cur|] eqn:G.
  2:{ rewrite (reconcile_missing _ _ _ _ H E G). intros [= <-]. right. auto. }
  destruct (Blockchain.findFork (this_chain st) cur (Blockchain.head (this_chain st)))
    as [[fork|] lin] eqn:F.
  2:{ rewrite (reconcile_disjoint _ _ _ _ _ _ H E G F). discriminate. }
  destruct (reconcile_outcome signal old st h cur fork lin H E G F)
    as (removed & added & e1 & _ & _ & _ & Hev & _ & Hout).
  intros Hthrow. rewrite Hthrow in Hout. destruct Hout as (-> & Hd & _).
  left. split; [reflexivity|]. eexists. split; [exact Hd | exact Hev].
Qed.

(** X1.  [update] fails in two ways only.  Either a handler has rejected an
    event, which the call had emitted; or the header of the cursor was
    looked up and not found, and then the assertion error carries the hash
    and no Remove or Add of the pass has been emitted, only the Add of the
    genesis block when the processor was unseeded.  In particular no
    [equals] is ever called on or with a null hash. *)
Theorem update_fails_two_ways signal st err :
  fst (update signal st) = Throw err ->
  (err = HandlerRejected
   /\ exists done, done <> []
        /\ events (actions (snd (update signal st))) = events (actions st) ++ done)
  \/ (exists h,
        hash (self (snd (update signal st))) = Some h
        /\ err = AssertionError (head_not_found h)
        /\ Blockchain.getHeader (this_chain (snd (update signal st))) h = None
        /\ events (actions (snd (update signal st)))
           = events (actions st)
             ++ match hash (self st) with
                | Some _ => []
                | None => [Add (Blockchain.genesis (this_chain st))]
                end).
Proof.
  destruct (hash (self st)) as [h|] eqn:H.
  - rewrite (update_seeded _ _ _ H). intros Ht.
    destruct (reconcile_throws _ _ _ _ _ H Ht) as [Hl|(-> & G & Hs)]; [now left|].
    right. exists h. rewrite Hs, app_nil_r. auto.
  - rewrite (update_unseeded _ _ H). cbv zeta.
    destruct (run_handlers _ _ _) as [[[]|e0] e] eqn:Hr.
    + intros Ht.
      match type of Ht with context [reconcile ?s ?o ?x] =>
        destruct (reconcile_throws s o x _ err eq_refl Ht)
          as [(-> & done & Hd & Hev)|(-> & G & Hs)] end.
      * left. split; [reflexivity|]. exists (Add (Blockchain.genesis (this_chain st)) :: done).
        split; [discriminate|]. rewrite Hev. simpl. rewrite events_app, <- app_assoc.
        reflexivity.
      * right. eexists. rewrite Hs. split; [reflexivity|]. split; [reflexivity|].
        split; [exact G|]. simpl. rewrite events_app. reflexivity.
    + simpl. intros [= <-]. rewrite (run_handlers_rejects _ _ _ _ _ Hr).
      left. split; [reflexivity|]. eexists. split; [|apply events_app]. discriminate.
Qed.

Lemma update_fails_two_ways_witness :
  hash (self (snd (update None (Scenario.seeded Scenario.G Scenario.broken false))))
    = Some (LocalBlockHeader.hash Scenario.G)
  /\ events (actions (snd (update None (Scenario.seeded Scenario.G Scenario.broken false))))
     = [].
Proof.
  destruct (update_fails_two_ways None (Scenario.seeded Scenario.G Scenario.broken false)
              (AssertionError (head_not_found (LocalBlockHeader.hash Scenario.G))))
    as [[E _]|(h & H1 & _ & _ & H2)].
  - vm_compute. reflexivity.
  - discriminate E.
  - split; [vm_compute; reflexivity | exact H2].
Defined.

(** ** The value of [update] for a seeded processor *)

(** X2.  For a processor that has a hash at entry, [hashChanged] tells
    whether the hash of the cursor at return differs from the hash at
    entry, whichever return the call takes. *)
Theorem hashChanged_of_seeded signal st h r :
  hash (self st) = Some h ->
  fst (update signal st) = Normal r ->
  exists h', hash (self (snd (update signal st))) = Some h'
             /\ (hashChanged r = true <-> h' <> h).
Proof.
  intros H. rewrite (update_seeded _ _ _ H).
  assert (Hsame : forall r0, Normal r0 = Normal r -> r0 = mkResult false ->
            exists h', hash (self st) = Some h' /\ (hashChanged r = true <-> h' <> h)).
  { intros r0 [= <-] ->. exists h. split; [exact H|]. simpl.
    split; [discriminate | intros C; now contradiction C]. }
  destruct (Buffer.equals (LocalBlockHeader.hash (Blockchain.head (this_chain st))) h) eqn:E.
  { rewrite (reconcile_same _ _ _ _ H E). simpl. intros Hr. now apply (Hsame _ Hr). }
  destruct (Blockchain.getHeader (this_chain st) h) as [cur|] eqn:G.
  2:{ rewrite (reconcile_missing _ _ _ _ H E G). discriminate. }
  destruct (Blockchain.findFork (this_chain st) cur (Blockchain.head (this_chain st)))
    as [[fork|] lin] eqn:F.
  2:{ rewrite (reconcile_disjoint _ _ _ _ _ _ H E G F). simpl. intros Hr.
      now apply (Hsame _ Hr). }
  destruct (reconcile_outcome signal (Some h) st h cur fork lin H E G F)
    as (removed & added & e1 & _ & _ & _ & _ & Hh & Hout).
  intros Hr. rewrite Hr in Hout. destruct Hout as [_ ->].
  unfold moved_since. destruct (hash (self (snd _))) as [h'|]; [|contradiction].
  exists h'. split; [reflexivity|]. simpl.
  rewrite negb_true_iff. apply Buffer_equals_neq.
Qed.

Lemma hashChanged_of_seeded_witness :
  exists h',
    hash (self (snd (update None (Scenario.seeded Scenario.A3 Scenario.reorged false))))
      = Some h'
    /\ (hashChanged (mkResult true) = true <-> h' <> LocalBlockHeader.hash Scenario.A3).
Proof.
  apply (hashChanged_of_seeded None (Scenario.seeded Scenario.A3 Scenario.reorged false)).
  - reflexivity.
  - vm_compute. reflexivity.
Defined.

(** ** A call that is cut short *)

(** X3.  When the handlers leave the store alone, what a call emits is a
    first part of the script of the whole pass, whether the call completes,
    finds the signal aborted or has a handler reject: the headers of the old
    branch from the cursor down, except the fork, then those of the new
    branch from the fork up. *)
Theorem pass_emits_start_of_script signal st h cur fork lin :
  hash (self st) = Some h ->
  Buffer.equals (LocalBlockHeader.hash (Blockchain.head (this_chain st))) h = false ->
  Blockchain.getHeader (this_chain st) h = Some cur ->
  Blockchain.findFork (this_chain st) cur (Blockchain.head (this_chain st))
    = (Some fork, lin) ->
  settled (fun e => chains e (chain (self st)) = this_chain st) st ->
  exists done rest,
    events (actions (snd (update signal st))) = events (actions st) ++ done
    /\ script (this_chain st) cur fork lin (Blockchain.head (this_chain st)) = done ++ rest.
Proof.
  intros H E G F Hst. rewrite (update_seeded _ _ _ H).
  destruct (reconcile_outcome signal (Some h) st h cur fork lin H E G F)
    as (removed & added & e1 & (r1 & Hfrom & Hall) & (r2 & Hto) & He1 & Hev & _).
  specialize (He1 _ Hst). cbv beta in He1. rewrite He1 in Hto.
  unfold script. rewrite Hfrom, Hto.
  exists (map Remove removed ++ map Add added).
  destruct added as [|a added].
  - exists (map Remove r1 ++ map Add r2). split; [exact Hev|].
    simpl. rewrite app_nil_r, map_app, <- app_assoc. reflexivity.
  - exists (map Add r2). split; [exact Hev|].
    rewrite (Hall ltac:(discriminate)), app_nil_r, map_app, <- app_assoc. reflexivity.
Qed.

Lemma pass_emits_start_of_script_witness :
  exists done rest,
    events (actions (snd (update (Some 0%nat) Cancellation.interrupted)))
      = events (actions Cancellation.interrupted) ++ done
    /\ script (this_chain Cancellation.interrupted) Scenario.A3 Scenario.G false
         (Blockchain.head (this_chain Cancellation.interrupted)) = done ++ rest.
Proof.
  apply (pass_emits_start_of_script (Some 0%nat) Cancellation.interrupted
           (LocalBlockHeader.hash Scenario.A3)).
  - reflexivity.
  - reflexivity.
  - reflexivity.
  - reflexivity.
  - split; [reflexivity|].
    apply Forall_cons; [|apply Forall_cons; [|apply Forall_nil]].
    + intros x e e' He [= <-]; exact He.
    + intros x e e' He [= <-]; exact He.
Defined.

(** X4.  The cursor follows the acknowledged events.  For a processor that
    has a hash at entry: when the call returns, cancelled or not, the cursor
    is where the last event it emitted puts it (on the header of an Add, on
    the parent of a Remove), or where it was when nothing was emitted; when
    a handler rejects, the cursor is where the event before the rejected one
    puts it; when the assertion fails, nothing was emitted and the cursor
    has not moved. *)
Theorem cursor_follows_acknowledged signal st h :
  hash (self st) = Some h ->
  exists done,
    events (actions (snd (update signal st))) = events (actions st) ++ done
    /\ match fst (update signal st) with
       | Normal _ => cursor (snd (update signal st)) = acknowledged done (cursor st)
       | Throw HandlerRejected =>
           done <> []
           /\ cursor (snd (update signal st)) = acknowledged (removelast done) (cursor st)
       | Throw _ => done = [] /\ cursor (snd (update signal st)) = cursor st
       end.
Proof.
  intros H. rewrite (update_seeded _ _ _ H).
  assert (Hnil : forall st0 : State, events (actions st0) = events (actions st0) ++ []).
  { intros st0. now rewrite app_nil_r. }
  destruct (Buffer.equals (LocalBlockHeader.hash (Blockchain.head (this_chain st))) h) eqn:E.
  { rewrite (reconcile_same _ _ _ _ H E). exists []. split; [apply Hnil | reflexivity]. }
  destruct (Blockchain.getHeader (this_chain st) h) as [cur|] eqn:G.
  2:{ rewrite (reconcile_missing _ _ _ _ H E G). exists []. split; [apply Hnil|].
      split; reflexivity. }
  destruct (Blockchain.findFork (this_chain st) cur (Blockchain.head (this_chain st)))
    as [[fork|] lin] eqn:F.
  2:{ rewrite (reconcile_disjoint _ _ _ _ _ _ H E G F). exists [].
      split; [apply Hnil | reflexivity]. }
  destruct (reconcile_outcome signal (Some h) st h cur fork lin H E G F)
    as (removed & added & e1 & _ & _ & _ & Hev & _ & Hout).
  exists (map Remove removed ++ map Add added). split; [exact Hev|].
  destruct (fst (reconcile signal (Some h) st)) as [r|err].
  - apply Hout.
  - destruct Hout as (-> & Hd & Hc). split; assumption.
Qed.

Lemma cursor_follows_acknowledged_witness :
  exists done,
    events (actions (snd (update (Some 0%nat) Cancellation.interrupted)))
      = events (actions Cancellation.interrupted) ++ done
    /\ match fst (update (Some 0%nat) Cancellation.interrupted) with
       | Normal _ =>
           cursor (snd (update (Some 0%nat) Cancellation.interrupted))
             = acknowledged done (cursor Cancellation.interrupted)
       | Throw HandlerRejected =>
           done <> []
           /\ cursor (snd (update (Some 0%nat) Cancellation.interrupted))
                = acknowledged (removelast done) (cursor Cancellation.interrupted)
       | Throw _ =>
           done = []
           /\ cursor (snd (update (Some 0%nat) Cancellation.interrupted))
                = cursor Cancellation.interrupted
       end.
Proof.
  apply (cursor_follows_acknowledged (Some 0%nat) Cancellation.interrupted
           (LocalBlockHeader.hash Scenario.A3)).
  reflexivity.
Defined.

(** ** Removals first, and nothing for the fork *)

Lemma others_not_fork fork l : Forall (fun x => not_fork fork x = true) (others fork l).
Proof.
  apply Forall_forall. intros x Hx. unfold others in Hx.
  now apply filter_In in Hx as [_ Hx].
Qed.

Lemma Forall_front {A} (P : A -> Prop) (l a b : list A) :
  l = a ++ b -> Forall P l -> Forall P a.
Proof. intros ->. intros H. now apply Forall_app in H as [H _]. Qed.

(** X5.  Whatever the handlers and the store do, the events of a pass are
    removals followed by additions; none of them is for a header with the
    hash of the fork; and when [findFork] reports a linear relation nothing
    is removed. *)
Theorem pass_removes_then_adds signal st h cur fork lin :
  hash (self st) = Some h ->
  Buffer.equals (LocalBlockHeader.hash (Blockchain.head (this_chain st))) h = false ->
  Blockchain.getHeader (this_chain st) h = Some cur ->
  Blockchain.findFork (this_chain st) cur (Blockchain.head (this_chain st))
    = (Some fork, lin) ->
  exists removed added,
    events (actions (snd (update signal st)))
      = events (actions st) ++ map Remove removed ++ map Add added
    /\ (lin = true -> removed = [])
    /\ Forall (fun x => LocalBlockHeader.hash x <> LocalBlockHeader.hash fork)
         (removed ++ added).
Proof.
  intros H E G F. rewrite (update_seeded _ _ _ H).
  destruct (reconcile_outcome signal (Some h) st h cur fork lin H E G F)
    as (removed & added & e1 & (r1 & Hfrom & _) & (r2 & Hto) & _ & Hev & _).
  exists removed, added. split; [exact Hev|]. split.
  - intros ->. symmetry in Hfrom. now apply app_eq_nil in Hfrom as [-> _].
  - assert (Hnf : forall x, not_fork fork x = true ->
                  LocalBlockHeader.hash x <> LocalBlockHeader.hash fork).
    { intros x Hx. unfold not_fork in Hx. now apply negb_true_iff, Buffer_equals_neq in Hx. }
    apply Forall_app. split.
    + apply Forall_impl with (P := fun x => not_fork fork x = true); [exact Hnf|].
      apply (Forall_front _ _ _ _ Hfrom).
      destruct lin; [apply Forall_nil | apply others_not_fork].
    + apply Forall_impl with (P := fun x => not_fork fork x = true); [exact Hnf|].
      apply (Forall_front _ _ _ _ Hto). apply others_not_fork.
Qed.

Lemma pass_removes_then_adds_witness :
  exists removed added,
    events (actions (snd (update None (Scenario.seeded Scenario.A1 Scenario.on_B1 false))))
      = events (actions (Scenario.seeded Scenario.A1 Scenario.on_B1 false))
        ++ map Remove removed ++ map Add added
    /\ (false = true -> removed = [])
    /\ Forall (fun x => LocalBlockHeader.hash x <> LocalBlockHeader.hash Scenario.G)
         (removed ++ added).
Proof.
  apply (pass_removes_then_adds None (Scenario.seeded Scenario.A1 Scenario.on_B1 false)
           (LocalBlockHeader.hash Scenario.A1) Scenario.A1 Scenario.G false).
  - reflexivity.
  - reflexivity.
  - reflexivity.
  - reflexivity.
Defined.

(** ** The cursor is the hash and the sequence of one header *)

Lemma successor_in_walk (d : Header) : forall l x,
  descending l -> In x l -> x <> last l d -> exists y, In y l /\ child_of x y.
Proof.
  induction l as [|a l IH]; intros x Hd Hx Hl; [contradiction|].
  destruct l as [|b l].
  - destruct Hx as [<-|[]]. now contradiction Hl.
  - destruct Hd as [Hab Hd]. destruct Hx as [<-|Hx].
    + exists b. split; [right; now left | exact Hab].
    + destruct (IH x Hd Hx Hl) as (y & Hy & Hc). exists y. split; [now right | exact Hc].
Qed.

Lemma acknowledged_keeps (P : option Buffer.t * option Z -> Prop) l : forall c0,
  P c0 -> Forall (fun e => P (cursor_of e)) l -> P (acknowledged l c0).
Proof.
  induction l as [|e l IH]; intros c0 H0 Hl; [exact H0|].
  inversion Hl; subst. apply (IH (cursor_of e)); assumption.
Qed.

Lemma Forall_removelast {A} (P : A -> Prop) l : Forall P l -> Forall P (removelast l).
Proof.
  induction l as [|x l IH]; intros H; [exact H|].
  inversion H; subst. destruct l as [|y l]; [constructor|].
  change (Forall P (x :: removelast (y :: l))). constructor; auto.
Qed.

Lemma parent_cursor x y : child_of x y -> after_remove x = after_add y.
Proof.
  intros [Hp Hs]. unfold after_remove, after_add. rewrite Hp, Hs. do 2 f_equal. lia.
Qed.

Section Seated.

Variable known : Header -> Prop.
Variable g : Header.

Lemma reconcile_seated I signal old st :
  honours known g (this_chain st) ->
  settled I st ->
  (forall e, I e -> chains e (chain (self st)) = this_chain st) ->
  seated known st ->
  seated known (snd (reconcile signal old st)).
Proof.
  intros HS Hst HI (x0 & K0 & C0).
  assert (Hs0 : seated known st) by (exists x0; auto).
  assert (H : hash (self st) = Some (LocalBlockHeader.hash x0)).
  { unfold cursor, after_add in C0. now injection C0 as -> _. }
  destruct (Buffer.equals (LocalBlockHeader.hash (Blockchain.head (this_chain st)))
              (LocalBlockHeader.hash x0)) eqn:E.
  { now rewrite (reconcile_same _ _ _ _ H E). }
  destruct (Blockchain.getHeader (this_chain st) (LocalBlockHeader.hash x0)) as [cur|] eqn:G.
  2:{ now rewrite (reconcile_missing _ _ _ _ H E G). }
  destruct (Blockchain.findFork (this_chain st) cur (Blockchain.head (this_chain st)))
    as [[fork|] lin] eqn:F.
  2:{ now rewrite (reconcile_disjoint _ _ _ _ _ _ H E G F). }
  destruct (honours_getHeader _ _ _ HS _ _ G) as [Kc _].
  pose proof (honours_head _ _ _ HS) as Kt.
  destruct (honours_iterateFrom _ _ _ HS _ _ _ _ G F) as [(_ & Hlast & Hdesc) Kd].
  destruct (honours_iterateTo _ _ _ HS _ _ _ _ G F) as [_ Ku].
  destruct (reconcile_outcome signal old st _ cur fork lin H E G F)
    as (removed & added & e1 & (r1 & Hfrom & _) & (r2 & Hto) & He1 & _ & _ & Hout).
  specialize (He1 _ Hst). rewrite (HI _ He1) in Hto.
  assert (Hall : Forall (fun e => exists y, known y /\ cursor_of e = after_add y)
                   (map Remove removed ++ map Add added)).
  { apply Forall_app. split; apply Forall_map, Forall_forall; intros x Hx.
    - destruct lin.
      { symmetry in Hfrom. apply app_eq_nil in Hfrom as [-> _]. contradiction. }
      assert (Hin : In x (others fork (Blockchain.iterateFrom (this_chain st) cur fork))).
      { rewrite Hfrom. apply in_or_app. now left. }
      apply filter_In in Hin as [Hin Hnf].
      destruct (successor_in_walk cur _ x Hdesc Hin) as (y & Hy & Hc).
      + rewrite Hlast. intros ->. unfold not_fork in Hnf.
        rewrite Buffer_equals_refl in Hnf. discriminate.
      + exists y. split; [|now apply parent_cursor].
        rewrite Forall_forall in Kd. now apply Kd.
    - exists x. split; [|reflexivity].
      assert (Hin : In x (others fork (Blockchain.iterateTo (this_chain st) fork
                                         (Blockchain.head (this_chain st))))).
      { rewrite Hto. apply in_or_app. now left. }
      apply filter_In in Hin as [Hin _]. rewrite Forall_forall in Ku. now apply Ku. }
  unfold seated. destruct (fst (reconcile signal old st)) as [r|err].
  - destruct Hout as [-> _].
    apply (acknowledged_keeps (fun c => exists y, known y /\ c = after_add y)); auto.
  - destruct Hout as (_ & _ & ->).
    apply (acknowledged_keeps (fun c => exists y, known y /\ c = after_add y)); auto.
    now apply Forall_removelast.
Qed.

Lemma update_seated I signal st :
  known g ->
  honours known g (this_chain st) ->
  settled I st ->
  (forall e, I e -> chains e (chain (self st)) = this_chain st) ->
  cursor st = (None, None) \/ seated known st ->
  cursor (snd (update signal st)) = (None, None) \/ seated known (snd (update signal st)).
Proof.
  intros Kg HS Hst HI [Hn|Hs].
  - assert (H : hash (self st) = None) by (unfold cursor in Hn; now injection Hn).
    rewrite (update_unseeded _ _ H). cbv zeta.
    pose proof (run_handlers_keeps I (onAdd (self st)) (Blockchain.genesis (this_chain st)))
      as K.
    destruct Hst as [He Hh]. pose proof Hh as Hh'. unfold handlers in Hh'.
    apply Forall_app in Hh' as [Ha _]. specialize (K Ha _ He).
    destruct (run_handlers _ _ _) as [[[]|err] e]; simpl in K.
    + right. rewrite (HI _ K), (honours_genesis _ _ _ HS).
      apply (reconcile_seated I).
      * unfold this_chain. simpl. rewrite (HI _ K). exact HS.
      * split; [exact K | exact Hh].
      * intros e' He'. unfold this_chain. simpl. rewrite (HI _ K). now apply HI.
      * exists g. split; [exact Kg | reflexivity].
    + left. exact Hn.
  - right. destruct Hs as (x & Kx & Cx).
    assert (H : hash (self st) = Some (LocalBlockHeader.hash x)).
    { unfold cursor, after_add in Cx. now injection Cx as -> _. }
    rewrite (update_seeded _ _ _ H). apply (reconcile_seated I); auto.
    exists x. auto.
Qed.

End Seated.

Lemma careful_keeps I c S hd :
  careful I c hd -> keeps (fun e => I e /\ chains e c = S) hd.
Proof.
  intros Hc h e e' [He <-] Hr. destruct (Hc h e e' He Hr) as [H1 H2]. auto.
Qed.

Lemma run_seated known g I c : forall ops st,
  known g ->
  (forall e, I e -> honours known g (chains e c)) ->
  Forall (orderly I c) ops ->
  chain (self st) = c -> I (env st) -> Forall (careful I c) (handlers (self st)) ->
  cursor st = (None, None) \/ seated known st ->
  cursor (run ops st) = (None, None) \/ seated known (run ops st).
Proof.
  induction ops as [|o ops IH]; intros st Kg HS Ho Hc He Hh Hcur; [exact Hcur|].
  apply Forall_cons_iff in Ho as [Hord Hrest]. simpl.
  destruct o as [hd|hd|f|signal]; simpl in *.
  - apply IH; auto. unfold handlers in *. simpl. unfold Event_on.
    apply Forall_app in Hh as [Ha Hr]. repeat (apply Forall_app; split); auto.
  - apply IH; auto. unfold handlers in *. simpl. unfold Event_on.
    apply Forall_app in Hh as [Ha Hr]. repeat (apply Forall_app; split); auto.
  - apply IH; auto; now apply Hord.
  - subst c.
    assert (Hst : settled (fun e => I e /\ chains e (chain (self st)) = this_chain st) st).
    { split; [split; [exact He | reflexivity]|].
      eapply Forall_impl; [|exact Hh]. intros hd Hhd. now apply careful_keeps. }
    pose proof (update_stays_settled _ signal st Hst) as [[He' _] _].
    destruct (update_same_frame signal st) as (Hc' & _ & Ha' & Hr' & _).
    apply IH; [exact Kg | exact HS | exact Hrest | exact Hc' | exact He' | | ].
    + unfold handlers. rewrite Ha', Hr'. exact Hh.
    + apply (update_seated known g (fun e => I e /\ chains e (chain (self st)) = this_chain st));
        auto.
      * apply HS. exact He.
      * intros e [_ H]. exact H.
Qed.

(** X6.  A processor that was constructed without a head, following a store
    that honours its interface, with handlers that may reject an event but
    leave the store alone: after every subscription, mutation of the store
    and call of [update], however the call ends, the cursor is unseeded or
    it is the hash together with the sequence of one and the same known
    header, that is, of the genesis block or of a header that the store has
    handed out.  So the sequence computed as [remove.sequence - 1] is the
    sequence of the parent whose hash the cursor takes.  The header need
    not be in the store any more once the store has changed. *)
Theorem cursor_on_known_header (known : Header -> Prop) (g : Header) (I : Env -> Prop)
    (c : ChainRef) opt_logger e ops :
  known g ->
  I e ->
  (forall e, I e -> honours known g (chains e c)) ->
  Forall (orderly I c) ops ->
  cursor (run ops (fresh opt_logger c None e)) = (None, None)
  \/ seated known (run ops (fresh opt_logger c None e)).
Proof.
  intros Kg Ie HS Hops. apply (run_seated known g I c); auto.
Qed.

Lemma quiet_careful : careful Scenario.reorganizing 0%nat Scenario.quiet.
Proof. intros h e e' He [= <-]. auto. Qed.

Lemma cursor_on_known_header_witness :
  cursor (run Scenario.session
            (fresh None 0%nat None (Scenario.env_of Scenario.main_A1 false))) = (None, None)
  \/ seated Scenario.small
       (run Scenario.session
          (fresh None 0%nat None (Scenario.env_of Scenario.main_A1 false))).
Proof.
  apply (cursor_on_known_header Scenario.small Scenario.G Scenario.reorganizing).
  - now left.
  - left. reflexivity.
  - intros e [->| ->]; [exact main_A1_honours | exact main_B1_honours].
  - repeat (apply Forall_cons; [|]); try apply Forall_nil; simpl; try exact Logic.I.
    + exact quiet_careful.
    + exact quiet_careful.
    + intros e _. right. reflexivity.
Defined.

(** ** Calling again *)

(** X7.  After a pass that has completed without the signal being aborted,
    on a store that the handlers leave alone and whose forward iterator
    yields the head last, a second call of [update], with any signal, is a
    no-op: it returns [{ hashChanged: false }] and the state is as the first
    call left it. *)
Theorem completed_pass_then_noop signal signal' st h cur fork lin r :
  hash (self st) = Some h ->
  Buffer.equals (LocalBlockHeader.hash (Blockchain.head (this_chain st))) h = false ->
  Blockchain.getHeader (this_chain st) h = Some cur ->
  Blockchain.findFork (this_chain st) cur (Blockchain.head (this_chain st))
    = (Some fork, lin) ->
  LocalBlockHeader.hash (Blockchain.head (this_chain st)) <> LocalBlockHeader.hash fork ->
  last (Blockchain.iterateTo (this_chain st) fork (Blockchain.head (this_chain st))) fork
    = Blockchain.head (this_chain st) ->
  settled (fun e => chains e (chain (self st)) = this_chain st
                    /\ signal_aborted signal e = false) st ->
  fst (update signal st) = Normal r ->
  update signal' (snd (update signal st))
    = (Normal (mkResult false), snd (update signal st)).
Proof.
  intros H E G F Hf Hlast Hst Hrun.
  pose proof (update_stays_settled _ signal st Hst) as [[He' _] _].
  destruct (update_same_frame signal st) as (Hc' & _).
  destruct (update signal st) as [c0 st'] eqn:Hup. simpl in *. subst c0.
  rewrite (update_seeded _ _ _ H) in Hup.
  apply (reconcile_completes
           (fun e => chains e (chain (self st)) = this_chain st
                     /\ signal_aborted signal e = false)
           signal (Some h) fork (fun e He => proj2 He) st h cur lin r st' Hst H E G F)
    in Hup.
  destruct Hup as (e1 & [He1 _] & Hup). cbv zeta in Hup. destruct Hup as [_ Cu].
  rewrite He1 in Cu.
  rewrite (cursor_after_last after_add fork (Blockchain.head (this_chain st))) in Cu;
    [|exact Hlast|unfold not_fork; now apply negb_true_iff, Buffer_equals_neq].
  assert (Hh' : hash (self st') = Some (LocalBlockHeader.hash (Blockchain.head (this_chain st)))).
  { unfold cursor, after_add in Cu. now injection Cu as -> _. }
  rewrite (update_seeded _ _ _ Hh'). apply (reconcile_same _ _ _ _ Hh').
  unfold this_chain at 1. rewrite Hc', He'. apply Buffer_equals_refl.
Qed.

Lemma completed_pass_then_noop_witness :
  update (Some 0%nat)
    (snd (update None (Scenario.seeded Scenario.A3 Scenario.reorged false)))
  = (Normal (mkResult false),
     snd (update None (Scenario.seeded Scenario.A3 Scenario.reorged false))).
Proof.
  apply (completed_pass_then_noop None (Some 0%nat)
           (Scenario.seeded Scenario.A3 Scenario.reorged false)
           (LocalBlockHeader.hash Scenario.A3) Scenario.A3 Scenario.G false (mkResult true)).
  - reflexivity.
  - reflexivity.
  - reflexivity.
  - reflexivity.
  - discriminate.
  - reflexivity.
  - split; [split; reflexivity|].
    apply Forall_cons; [|apply Forall_cons; [|apply Forall_nil]];
      intros x e e' He [= <-]; exact He.
  - vm_compute. reflexivity.
Defined.

(** ** The whole script *)

(** X8.  A pass with a fork that completes without the signal being
    aborted, on a store that the handlers leave alone, emits the whole
    script: every header of the old branch from the cursor down to the fork,
    then every header of the new branch from the fork up to the head, the
    fork itself in neither. *)
Theorem completed_pass_emits_script signal st h cur fork lin r :
  hash (self st) = Some h ->
  Buffer.equals (LocalBlockHeader.hash (Blockchain.head (this_chain st))) h = false ->
  Blockchain.getHeader (this_chain st) h = Some cur ->
  Blockchain.findFork (this_chain st) cur (Blockchain.head (this_chain st))
    = (Some fork, lin) ->
  settled (fun e => chains e (chain (self st)) = this_chain st
                    /\ signal_aborted signal e = false) st ->
  fst (update signal st) = Normal r ->
  events (actions (snd (update signal st)))
    = events (actions st)
      ++ script (this_chain st) cur fork lin (Blockchain.head (this_chain st)).
Proof.
  intros H E G F Hst Hrun.
  destruct (update signal st) as [c0 st'] eqn:Hup. simpl in *. subst c0.
  rewrite (update_seeded _ _ _ H) in Hup.
  apply (reconcile_completes
           (fun e => chains e (chain (self st)) = this_chain st
                     /\ signal_aborted signal e = false)
           signal (Some h) fork (fun e He => proj2 He) st h cur lin r st' Hst H E G F)
    in Hup.
  destruct Hup as (e1 & [He1 _] & Hup). cbv zeta in Hup. destruct Hup as [Ev _].
  rewrite He1 in Ev. unfold script. destruct lin; exact Ev.
Qed.

Lemma completed_pass_emits_script_witness :
  events (actions (snd (update None (Scenario.seeded Scenario.A1 Scenario.on_B1 false))))
  = events (actions (Scenario.seeded Scenario.A1 Scenario.on_B1 false))
    ++ script (this_chain (Scenario.seeded Scenario.A1 Scenario.on_B1 false))
         Scenario.A1 Scenario.G false
         (Blockchain.head (this_chain (Scenario.seeded Scenario.A1 Scenario.on_B1 false))).
Proof.
  apply (completed_pass_emits_script None
           (Scenario.seeded Scenario.A1 Scenario.on_B1 false)
           (LocalBlockHeader.hash Scenario.A1) Scenario.A1 Scenario.G false (mkResult true)).
  - reflexivity.
  - reflexivity.
  - reflexivity.
  - reflexivity.
  - split; [split; reflexivity|].
    apply Forall_cons; [|apply Forall_cons; [|apply Forall_nil]];
      intros x e e' He [= <-]; exact He.
  - vm_compute. reflexivity.
Defined.

(** ** The events add up to the path of the cursor *)

Lemma occurrences_nonneg H l : 0 <= occurrences H l.
Proof.
  induction l as [|x l IH]; simpl; [lia|].
  destruct (LocalBlockHeader.eqb x H); lia.
Qed.

Lemma occurrences_present H l : In H l -> 1 <= occurrences H l.
Proof.
  induction l as [|x l IH]; intros Hin; [contradiction|]. simpl.
  pose proof (occurrences_nonneg H l).
  destruct Hin as [->|Hin].
  - rewrite Header_eqb_refl. lia.
  - specialize (IH Hin). destruct (LocalBlockHeader.eqb x H); lia.
Qed.

(** X9.  Under the conditions of the balanced edit script (a processor
    constructed without a head; a store that answers lookups with the header
    of the hash and whose iterators walk between the fork and the header of
    the cursor and between the fork and the head; polite subscribers), after
    any run the events emitted so far add up to the path of the cursor:
    either nothing was emitted and the processor is unseeded, or there is a
    walk along parent links from the header of the cursor down to the
    genesis block such that a header on the walk has been added once more
    than removed and every other header as often as removed. *)
Theorem events_add_up_to_path (known : Header -> Prop) (g : Header) (I : Env -> Prop)
    (c : ChainRef) opt_logger e ops :
  universe known g ->
  I e ->
  (forall e, I e -> honours known g (chains e c)) ->
  Forall (civil I c) ops ->
  (hash (self (run ops (fresh opt_logger c None e))) = None
   /\ events (actions (run ops (fresh opt_logger c None e))) = [])
  \/ exists x rp,
       hash (self (run ops (fresh opt_logger c None e))) = Some (LocalBlockHeader.hash x)
       /\ walk_down (x :: rp) x g
       /\ Forall known (x :: rp)
       /\ forall H,
            net H (events (actions (run ops (fresh opt_logger c None e))))
            = if existsb (LocalBlockHeader.eqb H) (x :: rp) then 1 else 0.
Proof.
  intros U Ie HS Hops.
  destruct (run_ledger known g I c U HS ops (fresh opt_logger c None e) Hops)
    as [Hn|(x & rp & Hh & (Hd & Hl & Hk) & _ & Hnet)].
  - split; [reflexivity|]. split; [exact Ie | constructor].
  - left. split; reflexivity.
  - left. exact Hn.
  - right. exists x, rp. split; [exact Hh|]. split; [|split; [exact Hk|]].
    + split; [reflexivity|]. split; [|exact Hd].
      rewrite (last_default x x g). exact Hl.
    + intros H. rewrite Hnet.
      pose proof (occurrences_descending H _ Hd) as Hb.
      destruct (existsb _ _) eqn:Ex.
      * apply existsb_exists in Ex as (y & Hy & Hyeq). apply Header_eqb_eq in Hyeq.
        subst y. apply Z.le_antisymm; [exact (proj2 Hb) | exact (occurrences_present H _ Hy)].
      * apply occurrences_absent. intros y Hy ->.
        apply Bool.not_true_iff_false in Ex. apply Ex.
        apply existsb_exists. exists H. split; [exact Hy | apply Header_eqb_refl].
Qed.

Lemma events_add_up_to_path_witness :
  (hash (self (run Scenario.session
                 (fresh None 0%nat None (Scenario.env_of Scenario.main_A1 false)))) = None
   /\ events (actions (run Scenario.session
                 (fresh None 0%nat None (Scenario.env_of Scenario.main_A1 false)))) = [])
  \/ exists x rp,
       hash (self (run Scenario.session
                     (fresh None 0%nat None (Scenario.env_of Scenario.main_A1 false))))
         = Some (LocalBlockHeader.hash x)
       /\ walk_down (x :: rp) x Scenario.G
       /\ Forall Scenario.small (x :: rp)
       /\ forall H,
            net H (events (actions (run Scenario.session
                     (fresh None 0%nat None (Scenario.env_of Scenario.main_A1 false)))))
            = if existsb (LocalBlockHeader.eqb H) (x :: rp) then 1 else 0.
Proof.
  apply (events_add_up_to_path Scenario.small Scenario.G Scenario.reorganizing).
  - exact small_universe.
  - left. reflexivity.
  - intros e [->| ->]; [exact main_A1_honours | exact main_B1_honours].
  - repeat (apply Forall_cons; [|]); try apply Forall_nil; simpl; try exact Logic.I.
    + exact quiet_polite.
    + exact quiet_polite.
    + intros e _. right. reflexivity.
Defined.
